(** * delivy-server: the in-memory stores of [server.ts]

    A shallow embedding of the request handlers and of the periodic cleanup
    of [src/server.ts], together with the status handler of the older
    server kept in the repository ([src/unnamed/part_000]).

    Conventions of the embedding:
    - a JavaScript [Map<string, V>] is a [gmap string V]; the handlers only
      read, set and delete single keys, and the loops over all entries
      treat every entry independently of the others;
    - an array is a [list]; [arr[i] = x] is [<[i:=x]>], [push] appends;
    - [Date.now()] is a parameter [now : Z] (milliseconds), read once per
      handler; [Math.random()] ids are a parameter [newId];
    - JSON numbers that carry amounts are rationals ([Q]); the handlers
      never compute with them;
    - an optional or possibly missing request field is an [option];
    - a handler returns the new store and the HTTP response;
    - the WebSocket fan-out only reads its argument and writes no store, so
      it is left out of the state. *)

From Stdlib Require Import ZArith QArith Lia List Bool.
From stdpp Require Import base option list strings gmap fin_maps.

Open Scope Z_scope.

(** ** Constants *)

Definition THREE_HOURS : Z := 3 * 60 * 60 * 1000.
Definition FIFTEEN_MINUTES : Z := 15 * 60 * 1000.
Definition TWENTY_FOUR_HOURS : Z := 24 * 60 * 60 * 1000.

(** ** JavaScript helpers *)

(** Truthiness of a string-valued request field: [undefined] and the empty
    string are falsy. *)
Definition truthy (v : option string) : bool :=
  match v with
  | Some s => negb (String.eqb s EmptyString)
  | None => false
  end.

(** [a || b] on optional strings. *)
Definition js_or (a b : option string) : option string :=
  if truthy a then a else b.

(** [Array.prototype.findIndex]; [None] stands for [-1]. *)
Fixpoint findIndex {A : Type} (p : A → bool) (l : list A) : option nat :=
  match l with
  | [] => None
  | x :: l' => if p x then Some 0%nat else S <$> findIndex p l'
  end.

(** HTTP responses of the handlers: 200 with a body, 400, 404. *)
Inductive Response (A : Type) : Type :=
  | Ok (body : A)
  | BadRequest (error : string)
  | NotFound (error : string).
Arguments Ok {A} body.
Arguments BadRequest {A} error.
Arguments NotFound {A} error.

(** ** Type definitions *)

Module Restaurant.
Record t : Type := mk {
  id : string;
  name : string;
  coverImage : option string;
  isActive : bool;
  updatedAt : Z
}.
End Restaurant.

Module MenuItem.
Record t : Type := mk {
  id : string;
  name : string;
  description : string;
  price : Q;
  category : string;
  imageUri : option string;
  isAvailable : bool;
  updatedAt : Z
}.

(** [{...item, updatedAt: v}] *)
Definition with_updatedAt (v : Z) (item : t) : t :=
  mk (id item) (name item) (description item) (price item) (category item)
     (imageUri item) (isAvailable item) v.
End MenuItem.

Module OrderItem.
Record t : Type := mk {
  id : string;
  menuItemId : string;
  name : string;
  quantity : Q;
  price : Q
}.
End OrderItem.

Inductive OrderStatus : Type :=
  | PENDING | ACCEPTED | PREPARING | READY
  | PICKED_UP | ON_WAY | DELIVERED | CANCELLED.

Definition OrderStatus_eqb (a b : OrderStatus) : bool :=
  match a, b with
  | PENDING, PENDING | ACCEPTED, ACCEPTED | PREPARING, PREPARING
  | READY, READY | PICKED_UP, PICKED_UP | ON_WAY, ON_WAY
  | DELIVERED, DELIVERED | CANCELLED, CANCELLED => true
  | _, _ => false
  end.

Module Order.
Record t : Type := mk {
  id : string;
  userId : string;
  customerName : string;
  restaurantId : string;
  restaurantName : string;
  status : OrderStatus;
  totalAmount : Q;
  orderItems : list OrderItem.t;
  deliveryAddress : string;
  courierId : option string;
  courierName : option string;
  createdAt : Z
}.

(** [{...order, status: s, courierId: c}] *)
Definition with_status_courier (s : OrderStatus) (c : option string)
    (order : t) : t :=
  mk (id order) (userId order) (customerName order) (restaurantId order)
     (restaurantName order) s (totalAmount order) (orderItems order)
     (deliveryAddress order) c (courierName order) (createdAt order).
End Order.

Inductive ChatType : Type := RESTAURANT_CHAT | COURIER_CHAT.

Definition ChatType_eqb (a b : ChatType) : bool :=
  match a, b with
  | RESTAURANT_CHAT, RESTAURANT_CHAT | COURIER_CHAT, COURIER_CHAT => true
  | _, _ => false
  end.

Module Message.
Record t : Type := mk {
  id : string;
  orderId : string;
  content : string;
  senderId : string;
  isFromUser : bool;
  timestamp : Z;
  chatType : ChatType;
  delivered : bool
}.
End Message.

(** The value type of [tempMenus]. *)
Module MenuData.
Record t : Type := mk {
  items : list MenuItem.t;
  timestamp : Z
}.
End MenuData.

(** ** Menu endpoints *)

(** [POST /menus/:restaurantId].  [items] is [None] when the body's
    [items] is not an array. *)
Definition setMenu (now : Z) (restaurantId : string)
    (items : option (list MenuItem.t)) (tempMenus : gmap string MenuData.t)
    : gmap string MenuData.t * Response unit :=
  match items with
  | None => (tempMenus, BadRequest "Invalid menu items format")
  | Some items =>
      let itemsWithTimestamp := map (MenuItem.with_updatedAt now) items in
      (<[restaurantId := MenuData.mk itemsWithTimestamp now]> tempMenus,
       Ok tt)
  end.

(** [GET /menus/:restaurantId]. *)
Definition getMenu (now : Z) (restaurantId : string)
    (tempMenus : gmap string MenuData.t)
    : gmap string MenuData.t * Response (list MenuItem.t) :=
  match tempMenus !! restaurantId with
  | Some menuData =>
      if now - MenuData.timestamp menuData >? TWENTY_FOUR_HOURS
      then (delete restaurantId tempMenus, NotFound "Menu not found or expired")
      else (tempMenus, Ok (MenuData.items menuData))
  | None => (delete restaurantId tempMenus, NotFound "Menu not found or expired")
  end.

(** ** Restaurant endpoint *)

(** The multipart form of [POST /restaurants]: the three fields the handler
    reads, and the names of any other fields of the body. *)
Module RestaurantBody.
Record t : Type := mk {
  id : option string;
  name : option string;
  isActive : option string;
  otherKeys : list string
}.

(** [Object.keys(req.body).length === 0] *)
Definition isEmpty (body : t) : bool :=
  match id body, name body, isActive body, otherKeys body with
  | None, None, None, [] => true
  | _, _, _, _ => false
  end.
End RestaurantBody.

Inductive UpsertResult : Type :=
  | ImageUrl (imageUrl : string)
  | Saved (restaurant : Restaurant.t).

Definition uploadsUrl (filename : string) : string :=
  String.append "/uploads/" filename.

(** [POST /restaurants].  [file] is the stored name of the uploaded cover
    image, when the request carries one.  The files on disk are not part of
    the state. *)
Definition upsertRestaurant (now : Z) (file : option string)
    (body : RestaurantBody.t) (restaurants : list Restaurant.t)
    : list Restaurant.t * Response UpsertResult :=
  match file, RestaurantBody.isEmpty body with
  | Some filename, true => (restaurants, Ok (ImageUrl (uploadsUrl filename)))
  | _, _ =>
      if negb (truthy (RestaurantBody.id body))
         || negb (truthy (RestaurantBody.name body))
      then (restaurants, BadRequest "Missing required fields")
      else
        let id := default EmptyString (RestaurantBody.id body) in
        let name := default EmptyString (RestaurantBody.name body) in
        let existingIndex :=
          findIndex (λ r, String.eqb (Restaurant.id r) id) restaurants in
        let existingCoverImage :=
          match existingIndex with
          | Some i =>
              match restaurants !! i with
              | Some existing => Restaurant.coverImage existing
              | None => None
              end
          | None => None
          end in
        let restaurant :=
          Restaurant.mk id name
            (match file with
             | Some filename => Some (uploadsUrl filename)
             | None => existingCoverImage
             end)
            (match RestaurantBody.isActive body with
             | Some s => String.eqb s "true"
             | None => false
             end)
            now in
        match existingIndex with
        | Some i => (<[i := restaurant]> restaurants, Ok (Saved restaurant))
        | None => (restaurants ++ [restaurant], Ok (Saved restaurant))
        end
  end.

(** ** Order endpoints *)

(** [POST /orders/:userId].  [newOrders] is [None] when the body's [orders]
    is not an array. *)
Definition createOrders (userId : string) (newOrders : option (list Order.t))
    (orders : gmap string (list Order.t))
    : gmap string (list Order.t) * Response unit :=
  match newOrders with
  | None => (orders, BadRequest "Invalid orders format")
  | Some newOrders =>
      let existingOrders := default [] (orders !! userId) in
      let updatedOrders := existingOrders ++ newOrders in
      (<[userId := updatedOrders]> orders, Ok tt)
  end.

(** The body of the [orders.forEach] callback of the status handler: one
    visit of the bucket [userOrders] stored under [key]. *)
Definition updateStatus_visit (orderId : string) (status : OrderStatus)
    (courierId : option string) (key : string) (userOrders : list Order.t)
    (acc : gmap string (list Order.t) * bool)
    : gmap string (list Order.t) * bool :=
  match findIndex (λ order, String.eqb (Order.id order) orderId) userOrders with
  | Some orderIndex =>
      let userOrders' :=
        alter (λ order,
                 Order.with_status_courier status
                   (js_or courierId (Order.courierId order)) order)
              orderIndex userOrders in
      (<[key := userOrders']> acc.1, true)
  | None => acc
  end.

(** [PUT /orders/:orderId/status]. *)
Definition updateStatus (orderId : string) (status : OrderStatus)
    (courierId : option string) (orders : gmap string (list Order.t))
    : gmap string (list Order.t) * Response unit :=
  let '(orders', found) :=
    map_fold (updateStatus_visit orderId status courierId)
             (orders, false) orders in
  if found then (orders', Ok tt) else (orders', NotFound "Order not found").

(** A status request, and a run of such requests in order. *)
Module StatusRequest.
Record t : Type := mk {
  orderId : string;
  status : OrderStatus;
  courierId : option string
}.
End StatusRequest.

Definition updateStatus_run (requests : list StatusRequest.t)
    (orders : gmap string (list Order.t)) : gmap string (list Order.t) :=
  fold_left
    (λ orders r,
       (updateStatus (StatusRequest.orderId r) (StatusRequest.status r)
                     (StatusRequest.courierId r) orders).1)
    requests orders.

(** ** Message endpoints *)

Module MessageBody.
Record t : Type := mk {
  content : option string;
  senderId : option string;
  isFromUser : bool;
  chatType : option ChatType
}.
End MessageBody.

(** [POST /messages/:orderId]. *)
Definition postMessage (now : Z) (newId : string) (orderId : string)
    (body : MessageBody.t) (messages : gmap string (list Message.t))
    : gmap string (list Message.t) * Response Message.t :=
  match MessageBody.content body, MessageBody.senderId body,
        MessageBody.chatType body with
  | Some content, Some senderId, Some chatType =>
      if negb (truthy (Some content)) || negb (truthy (Some senderId))
      then (messages, BadRequest "Missing required fields")
      else
        let message :=
          Message.mk newId orderId content senderId
                     (MessageBody.isFromUser body) now chatType false in
        let orderMessages := default [] (messages !! orderId) in
        (<[orderId := orderMessages ++ [message]]> messages, Ok message)
  | _, _, _ => (messages, BadRequest "Missing required fields")
  end.

(** The age test shared by the message listing and the message sweep. *)
Definition isRecent (now : Z) (msg : Message.t) : bool :=
  now - Message.timestamp msg <=? THREE_HOURS.

(** [GET /messages/:orderId]; [type] is the optional query parameter. *)
Definition listMessages (now : Z) (orderId : string) (type : option ChatType)
    (messages : gmap string (list Message.t))
    : gmap string (list Message.t) * list Message.t :=
  let orderMessages := default [] (messages !! orderId) in
  let filteredMessages :=
    match type with
    | Some type =>
        List.filter (λ msg, ChatType_eqb (Message.chatType msg) type)
                    orderMessages
    | None => orderMessages
    end in
  let recentMessages := List.filter (isRecent now) filteredMessages in
  if (length recentMessages =? length orderMessages)%nat
  then (messages, recentMessages)
  else (<[orderId := recentMessages]> messages, recentMessages).

(** ** Periodic cleanup *)

(** The two bucket loops of the cleanup have one shape: filter the bucket,
    delete the key when nothing is left, store the filtered bucket
    otherwise.  The loop runs over the entries of the map it updates. *)
Definition sweep_visit {A : Type} (keep : A → bool) (key : string)
    (bucket : list A) (acc : gmap string (list A)) : gmap string (list A) :=
  let kept := List.filter keep bucket in
  if (length kept =? 0)%nat then delete key acc else <[key := kept]> acc.

Definition sweepMenus (now : Z) (tempMenus : gmap string MenuData.t)
    : gmap string MenuData.t :=
  map_fold
    (λ id data acc,
       if now - MenuData.timestamp data >? TWENTY_FOUR_HOURS
       then delete id acc else acc)
    tempMenus tempMenus.

Definition sweepMessages (now : Z) (messages : gmap string (list Message.t))
    : gmap string (list Message.t) :=
  map_fold (sweep_visit (isRecent now)) messages messages.

Definition isTerminal (status : OrderStatus) : bool :=
  OrderStatus_eqb status DELIVERED || OrderStatus_eqb status CANCELLED.

(** [order.status !== 'DELIVERED' && order.status !== 'CANCELLED' ||
    now - order.createdAt <= TWENTY_FOUR_HOURS] *)
Definition isActiveOrder (now : Z) (order : Order.t) : bool :=
  negb (OrderStatus_eqb (Order.status order) DELIVERED)
  && negb (OrderStatus_eqb (Order.status order) CANCELLED)
  || (now - Order.createdAt order <=? TWENTY_FOUR_HOURS).

Definition sweepOrders (now : Z) (orders : gmap string (list Order.t))
    : gmap string (list Order.t) :=
  map_fold (sweep_visit (isActiveOrder now)) orders orders.

(** ** The older server *)

Module Legacy.
Inductive OrderStatus : Type :=
  | PENDING | ACCEPTED | PREPARING | READY | DELIVERED | CANCELLED.

Module Order.
Record t : Type := mk {
  id : string;
  userId : string;
  customerName : string;
  restaurantId : string;
  restaurantName : string;
  status : OrderStatus;
  totalAmount : Q;
  orderItems : list OrderItem.t;
  createdAt : Z
}.

(** [order.status = s] *)
Definition with_status (s : OrderStatus) (order : t) : t :=
  mk (id order) (userId order) (customerName order) (restaurantId order)
     (restaurantName order) s (totalAmount order) (orderItems order)
     (createdAt order).
End Order.

(** [PUT /orders/:orderId/status] of the older server: the bucket is
    named by the [userId] of the request body. *)
Definition updateStatus (orderId : string) (status : OrderStatus)
    (userId : string) (orders : gmap string (list Order.t))
    : gmap string (list Order.t) * Response unit :=
  let userOrders := default [] (orders !! userId) in
  match findIndex (λ order, String.eqb (Order.id order) orderId) userOrders with
  | None => (orders, NotFound "Order not found")
  | Some orderIndex =>
      (<[userId := alter (Order.with_status status) orderIndex userOrders]>
         orders,
       Ok tt)
  end.
End Legacy.


(** ** Read-only endpoints *)

(** [GET /restaurants]; [type] is the optional query parameter. *)
Definition listRestaurants (type : option string)
    (restaurants : list Restaurant.t) : list Restaurant.t :=
  if match type with Some t => String.eqb t "all" | None => false end
  then restaurants
  else List.filter (λ r, Restaurant.isActive r) restaurants.

(** [GET /restaurants/:restaurantId]. *)
Definition getRestaurant (restaurantId : string)
    (restaurants : list Restaurant.t) : Response Restaurant.t :=
  match List.find (λ r, String.eqb (Restaurant.id r) restaurantId)
                  restaurants with
  | Some restaurant => Ok restaurant
  | None => NotFound "Restaurant not found"
  end.

(** [Array.from(orders.values()).flat()].  The buckets come in the order of
    the map's keys, which need not be the insertion order of the JavaScript
    map: only what does not depend on the order of the buckets is proved of
    the listings built on it. *)
Definition allOrders (orders : gmap string (list Order.t)) : list Order.t :=
  concat (map snd (map_to_list orders)).

(** [order.courierId === userId] *)
Definition isCourier (userId : string) (order : Order.t) : bool :=
  match Order.courierId order with
  | Some c => String.eqb c userId
  | None => false
  end.

(** [GET /orders/available]. *)
Definition listAvailable (orders : gmap string (list Order.t))
    : list Order.t :=
  List.filter
    (λ order, OrderStatus_eqb (Order.status order) READY
              && negb (truthy (Order.courierId order)))
    (allOrders orders).

(** The role filter of [GET /orders/:userId]. *)
Definition matchesRole (userId : string) (type : option string)
    (order : Order.t) : bool :=
  if match type with Some t => String.eqb t "customer" | None => false end
  then String.eqb (Order.userId order) userId
  else if match type with Some t => String.eqb t "courier" | None => false end
  then isCourier userId order
  else String.eqb (Order.restaurantId order) userId.

(** [GET /orders/:userId]; [type] is the optional query parameter. *)
Definition listOrders (now : Z) (userId : string) (type : option string)
    (orders : gmap string (list Order.t)) : list Order.t :=
  let userOrders := List.filter (matchesRole userId type) (allOrders orders) in
  List.filter (λ order, now - Order.createdAt order <=? TWENTY_FOUR_HOURS)
              userOrders.

(** ** The whole cleanup tick *)

Module ImageRecord.
Record t : Type := mk {
  filename : string;
  timestamp : Z
}.
End ImageRecord.

Module Courier.
Record t : Type := mk {
  id : string;
  fullName : string;
  phone : string;
  vehicleInfo : string;
  isAvailable : bool;
  currentOrderId : option string;
  totalDeliveries : Z;
  totalEarnings : Q;
  lastActive : Z
}.
End Courier.



(** The in-memory storage of the server. *)
Module State.
Record t : Type := mk {
  restaurants : list Restaurant.t;
  tempMenus : gmap string MenuData.t;
  messages : gmap string (list Message.t);
  orders : gmap string (list Order.t);
  imageRecords : list ImageRecord.t;
  couriers : gmap string Courier.t
}.
End State.


(** ** More of the older server *)

Module LegacyServer.
Module MenuItem.
Record t : Type := mk {
  id : string;
  name : string;
  description : string;
  price : Q;
  imageUri : option string
}.
End MenuItem.

Module MenuData.
Record t : Type := mk {
  items : list MenuItem.t;
  timestamp : Z
}.
End MenuData.

(** [POST /menus/:restaurantId] of the older server, for a body whose
    [items] is an array. *)
Definition setMenu (now : Z) (restaurantId : string)
    (items : list MenuItem.t) (tempMenus : gmap string MenuData.t)
    : gmap string MenuData.t * Response unit :=
  (<[restaurantId := MenuData.mk items now]> tempMenus, Ok tt).

(** [GET /menus/:restaurantId] of the older server. *)
Definition getMenu (restaurantId : string)
    (tempMenus : gmap string MenuData.t) : Response (list MenuItem.t) :=
  match tempMenus !! restaurantId with
  | None => NotFound "Menu not found"
  | Some menuData => Ok (MenuData.items menuData)
  end.

(** The menu loop of the older cleanup. *)
Definition sweepMenus (now : Z) (tempMenus : gmap string MenuData.t)
    : gmap string MenuData.t :=
  map_fold
    (λ id data acc,
       if now - MenuData.timestamp data >? 24 * 60 * 60 * 1000
       then delete id acc else acc)
    tempMenus tempMenus.

(** [POST /restaurants] of the older server. *)
Definition upsertRestaurant (now : Z) (file : option string)
    (id name isActive : option string) (restaurants : list Restaurant.t)
    : list Restaurant.t * Response Restaurant.t :=
  if negb (truthy id) || negb (truthy name)
  then (restaurants, BadRequest "Missing required fields")
  else
    let id := default EmptyString id in
    let name := default EmptyString name in
    let existingIndex :=
      findIndex (λ r, String.eqb (Restaurant.id r) id) restaurants in
    let restaurant :=
      Restaurant.mk id name
        (match file with
         | Some filename => Some (uploadsUrl filename)
         | None => None
         end)
        (match isActive with
         | Some s => if String.eqb s "true" then true else false
         | None => false
         end)
        now in
    match existingIndex with
    | Some i => (<[i := restaurant]> restaurants, Ok restaurant)
    | None => (restaurants ++ [restaurant], Ok restaurant)
    end.
End LegacyServer.

(** ** Per-bucket readings of the loops *)

(** What one pass of the status handler does to a single bucket. *)
Definition updateBucket (orderId : string) (status : OrderStatus)
    (courierId : option string) (userOrders : list Order.t) : list Order.t :=
  match findIndex (λ order, String.eqb (Order.id order) orderId) userOrders with
  | Some orderIndex =>
      alter (λ order,
               Order.with_status_courier status
                 (js_or courierId (Order.courierId order)) order)
            orderIndex userOrders
  | None => userOrders
  end.

Definition hasOrder (orderId : string) (userOrders : list Order.t) : bool :=
  match findIndex (λ order, String.eqb (Order.id order) orderId) userOrders with
  | Some _ => true
  | None => false
  end.

(** What the sweep leaves of a single bucket: [None] when the key is
    deleted. *)
Definition sweepBucket {A : Type} (keep : A → bool) (bucket : list A)
    : option (list A) :=
  let kept := List.filter keep bucket in
  if (length kept =? 0)%nat then None else Some kept.

(** ** Runs of requests on the message store *)

(** The requests that read or write [messages]: a post, a listing, and a
    tick of the cleanup. *)
Inductive MessageRequest : Type :=
  | PostMessage (now : Z) (newId orderId : string) (body : MessageBody.t)
  | ListMessages (now : Z) (orderId : string) (type : option ChatType)
  | SweepTick (now : Z).

Definition requestTime (request : MessageRequest) : Z :=
  match request with
  | PostMessage now _ _ _ => now
  | ListMessages now _ _ => now
  | SweepTick now => now
  end.

(** The message store a request leaves. *)
Definition serveMessages (request : MessageRequest)
    (messages : gmap string (list Message.t))
    : gmap string (list Message.t) :=
  match request with
  | PostMessage now newId orderId body =>
      (postMessage now newId orderId body messages).1
  | ListMessages now orderId type =>
      (listMessages now orderId type messages).1
  | SweepTick now => sweepMessages now messages
  end.

Definition serveAll (requests : list MessageRequest)
    (messages : gmap string (list Message.t))
    : gmap string (list Message.t) :=
  fold_left (λ messages request, serveMessages request messages)
            requests messages.

(** A listing of the order [orderId] filtered on a channel other than
    [chatType]. *)
Definition crossChannel (orderId : string) (chatType : ChatType)
    (request : MessageRequest) : bool :=
  match request with
  | ListMessages _ o (Some type) =>
      String.eqb o orderId && negb (ChatType_eqb chatType type)
  | _ => false
  end.

(** The channel filter of a listing. *)
Definition byType (type : option ChatType) (thread : list Message.t)
    : list Message.t :=
  match type with
  | Some type =>
      List.filter (λ msg, ChatType_eqb (Message.chatType msg) type) thread
  | None => thread
  end.

(** ** Notions of the specification *)

(** Sum over the line items of price times quantity. *)
Definition itemsTotal (items : list OrderItem.t) : Q :=
  fold_right (λ item acc, (OrderItem.price item * OrderItem.quantity item + acc)%Q)
             0%Q items.

(** The declared total of an order agrees with its line items. *)
Definition totalConsistent (order : Order.t) : Prop :=
  (Order.totalAmount order == itemsTotal (Order.orderItems order))%Q.

(** ** Sample data *)

Definition soup : MenuItem.t :=
  MenuItem.mk "i1" "Soup" "Lentil soup" (999 # 100) "Starters" None true 5.

Definition soupLine : OrderItem.t := OrderItem.mk "l1" "i1" "Soup" 1 2.

(** An order [o1] of customer [u1] at restaurant [r1], created at time
    [1000], declaring a total of 5 for one line worth 2. *)
Definition sampleOrder (status : OrderStatus) (courierId : option string)
    : Order.t :=
  Order.mk "o1" "u1" "Ada" "r1" "Bistro" status 5 [soupLine] "1 Main St"
           courierId None 1000.

Definition otherOrder : Order.t :=
  Order.mk "o2" "u1" "Ada" "r1" "Bistro" READY 2 [soupLine] "1 Main St"
           None None 2000.

Definition legacyOrder (status : Legacy.OrderStatus) : Legacy.Order.t :=
  Legacy.Order.mk "o1" "u1" "Ada" "r1" "Bistro" status 2 [soupLine] 1000.

Definition helloBody : MessageBody.t :=
  MessageBody.mk (Some "hello") (Some "u1") true (Some RESTAURANT_CHAT).

Definition helloMessage (timestamp : Z) : Message.t :=
  Message.mk "m1" "o1" "hello" "u1" true timestamp RESTAURANT_CHAT false.

Definition bistro : Restaurant.t :=
  Restaurant.mk "r1" "Bistro" (Some "/uploads/image-1.png") true 10.

(** * Properties *)

(** ** [findIndex] *)

Lemma findIndex_Some {A : Type} (p : A → bool) (l : list A) (i : nat) :
  findIndex p l = Some i → ∃ x, l !! i = Some x ∧ p x = true.
Proof.
  revert i. induction l as [|y l IH]; intros i; simpl; [discriminate|].
  destruct (p y) eqn:Hy.
  - intros [= <-]. exists y. by split.
  - destruct (findIndex p l) as [j|]; [|discriminate].
    intros [= <-]. by apply IH.
Qed.

Lemma findIndex_None {A : Type} (p : A → bool) (l : list A) :
  findIndex p l = None → ∀ i x, l !! i = Some x → p x = false.
Proof.
  induction l as [|y l IH]; simpl; [by intros _ i x; rewrite lookup_nil|].
  destruct (p y) eqn:Hy; [discriminate|].
  destruct (findIndex p l); [discriminate|].
  intros _ [|i] x; simpl; [by intros [= <-]|]. by apply IH.
Qed.

(** ** The loops over all buckets *)

Section status_loop.
Variables (orderId : string) (status : OrderStatus)
          (courierId : option string).

Let visit := updateStatus_visit orderId status courierId.
Let upd := updateBucket orderId status courierId.

Lemma updateStatus_loop_spec (orders0 m : gmap string (list Order.t)) :
  m ⊆ orders0 →
  let r := map_fold visit (orders0, false) m in
  (∀ k, r.1 !! k =
        match m !! k with
        | Some userOrders => Some (upd userOrders)
        | None => orders0 !! k
        end)
  ∧ (r.2 = true ↔
     ∃ k userOrders, m !! k = Some userOrders
                     ∧ hasOrder orderId userOrders = true).
Proof.
  apply (map_fold_weak_ind
    (λ r m, m ⊆ orders0 →
       (∀ k, r.1 !! k =
             match m !! k with
             | Some userOrders => Some (upd userOrders)
             | None => orders0 !! k
             end)
       ∧ (r.2 = true ↔
          ∃ k userOrders, m !! k = Some userOrders
                          ∧ hasOrder orderId userOrders = true))); clear m.
  - intros _. split.
    + intros k. by rewrite lookup_empty.
    + simpl. split; [discriminate|].
      intros (k & os & Hk & _). by rewrite lookup_empty in Hk.
  - intros i x m r Hi IH Hsub.
    assert (Hm : m ⊆ orders0).
    { etrans; [|exact Hsub]. by apply insert_subseteq. }
    assert (Hx : orders0 !! i = Some x).
    { eapply lookup_weaken; [|exact Hsub]. apply lookup_insert_eq. }
    destruct (IH Hm) as [IH1 IH2]. clear IH.
    unfold visit, updateStatus_visit, upd, updateBucket, hasOrder in *.
    destruct (findIndex (λ order, String.eqb (Order.id order) orderId) x)
      as [j|] eqn:Hfind; simpl.
    + split.
      * intros k. destruct (decide (i = k)) as [->|Hne].
        -- rewrite !lookup_insert_eq. by rewrite Hfind.
        -- rewrite !lookup_insert_ne by done. apply IH1.
      * split; [|done]. intros _. exists i, x.
        rewrite lookup_insert_eq. by rewrite Hfind.
    + split.
      * intros k. destruct (decide (i = k)) as [->|Hne].
        -- rewrite lookup_insert_eq, Hfind, IH1, Hi. done.
        -- rewrite lookup_insert_ne by done. apply IH1.
      * rewrite IH2. split.
        -- intros (k & os & Hk & Hos). exists k, os. split; [|done].
           rewrite lookup_insert_ne; [done|]. intros ->. congruence.
        -- intros (k & os & Hk & Hos). exists k, os. split; [|done].
           destruct (decide (i = k)) as [->|Hne].
           ++ rewrite lookup_insert_eq in Hk. injection Hk as <-.
              by rewrite Hfind in Hos.
           ++ by rewrite lookup_insert_ne in Hk.
Qed.

(** The store after the handler: every bucket has been passed through
    [updateBucket]; no bucket appears or disappears. *)
Lemma updateStatus_lookup (orders : gmap string (list Order.t)) (k : string) :
  (updateStatus orderId status courierId orders).1 !! k
  = upd <$> orders !! k.
Proof.
  unfold updateStatus.
  destruct (updateStatus_loop_spec orders orders) as [H1 _]; [done|].
  fold visit.
  destruct (map_fold visit (orders, false) orders) as [orders' found].
  simpl in H1. specialize (H1 k).
  destruct found; simpl; rewrite H1; by destruct (orders !! k).
Qed.

(** The response: 404 exactly when no bucket holds the order id. *)
Lemma updateStatus_response (orders : gmap string (list Order.t)) :
  (updateStatus orderId status courierId orders).2 =
    Ok tt
    ∧ (∃ k userOrders, orders !! k = Some userOrders
                       ∧ hasOrder orderId userOrders = true)
  ∨ (updateStatus orderId status courierId orders).2 =
      NotFound "Order not found"
    ∧ (∀ k userOrders, orders !! k = Some userOrders
                       → hasOrder orderId userOrders = false).
Proof.
  unfold updateStatus.
  destruct (updateStatus_loop_spec orders orders) as [_ H2]; [done|].
  fold visit.
  destruct (map_fold visit (orders, false) orders) as [orders' found].
  simpl in H2. destruct found; simpl.
  - left. split; [done|]. by apply H2.
  - right. split; [done|]. intros k os Hk.
    destruct (hasOrder orderId os) eqn:Hh; [|done].
    assert (false = true) by (apply H2; eauto). done.
Qed.
End status_loop.

Section sweep_loop.
Context {A : Type} (keep : A → bool).

Lemma sweep_loop_spec (m0 m : gmap string (list A)) :
  m ⊆ m0 →
  ∀ k, map_fold (sweep_visit keep) m0 m !! k =
       match m !! k with
       | Some bucket => sweepBucket keep bucket
       | None => m0 !! k
       end.
Proof.
  apply (map_fold_weak_ind
    (λ r m, m ⊆ m0 →
       ∀ k, r !! k = match m !! k with
                     | Some bucket => sweepBucket keep bucket
                     | None => m0 !! k
                     end)); clear m.
  - intros _ k. by rewrite lookup_empty.
  - intros i x m r Hi IH Hsub k.
    assert (Hm : m ⊆ m0).
    { etrans; [|exact Hsub]. by apply insert_subseteq. }
    specialize (IH Hm).
    unfold sweep_visit, sweepBucket.
    destruct (decide (i = k)) as [->|Hne].
    + rewrite lookup_insert_eq.
      destruct (length (List.filter keep x) =? 0)%nat.
      * apply lookup_delete_eq.
      * apply lookup_insert_eq.
    + rewrite (lookup_insert_ne m) by done.
      destruct (length (List.filter keep x) =? 0)%nat.
      * rewrite lookup_delete_ne by done. apply IH.
      * rewrite lookup_insert_ne by done. apply IH.
Qed.

Lemma sweep_lookup (m : gmap string (list A)) (k : string) :
  map_fold (sweep_visit keep) m m !! k = m !! k ≫= sweepBucket keep.
Proof.
  rewrite sweep_loop_spec by done. by destruct (m !! k).
Qed.
End sweep_loop.

(** ** Menus *)

Lemma gtb_false_le (a b : Z) : (a >? b) = false ↔ a ≤ b.
Proof. rewrite Z.gtb_ltb, Z.ltb_ge. done. Qed.

Lemma gtb_true_gt (a b : Z) : (a >? b) = true ↔ b < a.
Proof. rewrite Z.gtb_ltb, Z.ltb_lt. done. Qed.

(** C7.  [getMenu] answers with the stored items exactly when an entry is
    present and its age is at most 24 hours, and then leaves the store as it
    is; in every other case it answers 404 and the store it leaves has no
    entry for the restaurant (an expired entry is deleted by the read). *)
Theorem getMenu_lazy_expiry (now : Z) (restaurantId : string)
    (tempMenus : gmap string MenuData.t) :
  let r := getMenu now restaurantId tempMenus in
  (∀ items, r.2 = Ok items ↔
     ∃ menuData, tempMenus !! restaurantId = Some menuData
                 ∧ now - MenuData.timestamp menuData ≤ 24 * 60 * 60 * 1000
                 ∧ items = MenuData.items menuData)
  ∧ ((∃ items, r = (tempMenus, Ok items))
     ∨ (r = (delete restaurantId tempMenus, NotFound "Menu not found or expired")
        ∧ r.1 !! restaurantId = None
        ∧ ∀ k, k ≠ restaurantId → r.1 !! k = tempMenus !! k)).
Proof.
  unfold getMenu. fold TWENTY_FOUR_HOURS.
  destruct (tempMenus !! restaurantId) as [menuData|] eqn:Hget.
  - destruct (now - MenuData.timestamp menuData >? TWENTY_FOUR_HOURS) eqn:Hage;
      simpl.
    + apply gtb_true_gt in Hage. split.
      * intros items. split; [discriminate|].
        intros (md & [= <-] & Hle & _). lia.
      * right. split; [done|]. split; [apply lookup_delete_eq|].
        intros k Hk. by apply lookup_delete_ne.
    + apply gtb_false_le in Hage. split.
      * intros items. split.
        -- intros [= <-]. by exists menuData.
        -- intros (md & [= <-] & _ & ->). done.
      * left. by eexists.
  - simpl. split.
    + intros items. split; [discriminate|]. by intros (md & ? & _).
    + right. split; [done|]. split; [apply lookup_delete_eq|].
      intros k Hk. by apply lookup_delete_ne.
Qed.

(** C6, as stated, fails: the menu handler stamps every stored item with
    the time of the call, so an item posted with another [updatedAt] does
    not come back with the same field values. *)
Lemma setMenu_getMenu_not_identity :
  let s := (setMenu 1000 "r1" (Some [soup]) ∅).1 in
  (getMenu 1000 "r1" s).2 = Ok [MenuItem.with_updatedAt 1000 soup]
  ∧ (getMenu 1000 "r1" s).2 ≠ Ok [soup].
Proof.
  split; [by vm_compute|].
  vm_compute. intros H. discriminate H.
Qed.

(** C6, amended.  Setting the menu of [restaurantId] to an array and
    reading it back at most 24 hours later returns the posted items in the
    same order and number, each with its [updatedAt] replaced by the time of
    the set and every other field as posted; the stored entry is built from
    the posted items and the time of the set only (the previous menu plays
    no part), and its timestamp is the time of the set. *)
Theorem setMenu_getMenu_roundtrip (now now' : Z) (restaurantId : string)
    (items : list MenuItem.t) (tempMenus : gmap string MenuData.t) :
  now' - now ≤ TWENTY_FOUR_HOURS →
  let s := setMenu now restaurantId (Some items) tempMenus in
  let stamped := map (MenuItem.with_updatedAt now) items in
  s.2 = Ok tt
  ∧ s.1 !! restaurantId = Some (MenuData.mk stamped now)
  ∧ getMenu now' restaurantId s.1 = (s.1, Ok stamped)
  ∧ length stamped = length items
  ∧ ∀ i item, items !! i = Some item →
      ∃ item', stamped !! i = Some item'
        ∧ MenuItem.updatedAt item' = now
        ∧ MenuItem.id item' = MenuItem.id item
        ∧ MenuItem.name item' = MenuItem.name item
        ∧ MenuItem.description item' = MenuItem.description item
        ∧ MenuItem.price item' = MenuItem.price item
        ∧ MenuItem.category item' = MenuItem.category item
        ∧ MenuItem.imageUri item' = MenuItem.imageUri item
        ∧ MenuItem.isAvailable item' = MenuItem.isAvailable item.
Proof.
  intros Hage. simpl. split; [done|].
  split; [apply lookup_insert_eq|].
  split.
  - unfold getMenu. rewrite lookup_insert_eq. simpl.
    apply gtb_false_le in Hage. by rewrite Hage.
  - split; [apply length_map|].
    intros i item Hi. exists (MenuItem.with_updatedAt now item).
    split; [|done]. by rewrite list_lookup_fmap, Hi.
Qed.

Lemma setMenu_getMenu_roundtrip_witness :
  2000 - 1000 ≤ TWENTY_FOUR_HOURS
  ∧ getMenu 2000 "r1" (setMenu 1000 "r1" (Some [soup]) ∅).1
    = ((setMenu 1000 "r1" (Some [soup]) ∅).1,
       Ok [MenuItem.with_updatedAt 1000 soup]).
Proof.
  assert (Hage : 2000 - 1000 ≤ TWENTY_FOUR_HOURS)
    by (unfold TWENTY_FOUR_HOURS; lia).
  split; [exact Hage|].
  exact (proj1 (proj2 (proj2
           (setMenu_getMenu_roundtrip 1000 2000 "r1" [soup] ∅ Hage)))).
Defined.

(** ** The order sweep *)

Lemma isActiveOrder_spec (now : Z) (order : Order.t) :
  isActiveOrder now order = true ↔
    (Order.status order ≠ DELIVERED ∧ Order.status order ≠ CANCELLED)
    ∨ now - Order.createdAt order ≤ 24 * 60 * 60 * 1000.
Proof.
  unfold isActiveOrder. fold TWENTY_FOUR_HOURS.
  rewrite orb_true_iff, andb_true_iff, !negb_true_iff, Z.leb_le.
  destruct (Order.status order); simpl; intuition congruence.
Qed.

(** C5.  The order sweep keeps, in every owner bucket and in their order,
    exactly the orders whose status is neither DELIVERED nor CANCELLED or
    whose age is at most 24 hours; a bucket none of whose orders is kept
    is removed from the store, and no bucket is created. *)
Theorem sweepOrders_retention (now : Z) (orders : gmap string (list Order.t))
    (k : string) :
  (∀ order, isActiveOrder now order = true ↔
     (Order.status order ≠ DELIVERED ∧ Order.status order ≠ CANCELLED)
     ∨ now - Order.createdAt order ≤ 24 * 60 * 60 * 1000)
  ∧ match orders !! k with
    | Some userOrders =>
        let activeOrders := List.filter (isActiveOrder now) userOrders in
        (activeOrders = [] ∧ sweepOrders now orders !! k = None)
        ∨ (activeOrders ≠ [] ∧ sweepOrders now orders !! k = Some activeOrders)
    | None => sweepOrders now orders !! k = None
    end.
Proof.
  split; [apply isActiveOrder_spec|].
  unfold sweepOrders. rewrite sweep_lookup.
  destruct (orders !! k) as [userOrders|]; simpl; [|done].
  unfold sweepBucket.
  destruct (List.filter (isActiveOrder now) userOrders); simpl;
    [left|right]; done.
Qed.

(** ** The status handler *)

Section status_handler.
Variables (orderId : string) (status : OrderStatus)
          (courierId : option string).

Let touched (order : Order.t) : Order.t :=
  Order.with_status_courier status
    (js_or courierId (Order.courierId order)) order.

(** A bucket after one pass, position by position: only the first order
    carrying the id is rewritten. *)
Lemma updateBucket_lookup (userOrders : list Order.t) (i : nat)
    (order : Order.t) :
  userOrders !! i = Some order →
  updateBucket orderId status courierId userOrders !! i =
    Some (if decide (findIndex (λ o, String.eqb (Order.id o) orderId)
                               userOrders = Some i)
          then touched order else order).
Proof.
  intros Hi. unfold updateBucket.
  destruct (findIndex _ userOrders) as [j|] eqn:Hfind.
  - destruct (decide (j = i)) as [->|Hne].
    + rewrite list_lookup_alter_eq, Hi. simpl. by rewrite decide_True.
    + rewrite list_lookup_alter_ne, Hi by done.
      rewrite decide_False; [done|]. congruence.
  - rewrite Hi. by rewrite decide_False.
Qed.

Lemma updateBucket_length (userOrders : list Order.t) :
  length (updateBucket orderId status courierId userOrders)
  = length userOrders.
Proof.
  unfold updateBucket. destruct (findIndex _ userOrders); [|done].
  apply length_alter.
Qed.

Lemma updateBucket_absent (userOrders : list Order.t) :
  hasOrder orderId userOrders = false →
  updateBucket orderId status courierId userOrders = userOrders.
Proof.
  unfold hasOrder, updateBucket.
  by destruct (findIndex _ userOrders).
Qed.

Lemma updateStatus_not_found (orders : gmap string (list Order.t)) :
  (updateStatus orderId status courierId orders).2
    = NotFound "Order not found" →
  (updateStatus orderId status courierId orders).1 = orders.
Proof.
  intros Hresp.
  destruct (updateStatus_response orderId status courierId orders)
    as [[Hok _]|[_ Hnone]]; [congruence|].
  apply map_eq. intros k. rewrite updateStatus_lookup.
  destruct (orders !! k) as [userOrders|] eqn:Hk; [|done]. simpl.
  f_equal. apply updateBucket_absent. by eapply Hnone.
Qed.
End status_handler.

(** C9.  A status update leaves every order whose id differs from the
    requested one exactly as it was, at its place in its bucket, whether
    the call answers success or 404; buckets keep their length, and a 404
    leaves the whole store as it was. *)
Theorem updateStatus_frame (orderId : string) (status : OrderStatus)
    (courierId : option string) (orders : gmap string (list Order.t))
    (k : string) (userOrders : list Order.t) (i : nat) (order : Order.t) :
  orders !! k = Some userOrders →
  userOrders !! i = Some order →
  Order.id order ≠ orderId →
  let r := updateStatus orderId status courierId orders in
  (r.2 = Ok tt ∨ r.2 = NotFound "Order not found")
  ∧ (r.2 = NotFound "Order not found" → r.1 = orders)
  ∧ ∃ userOrders', r.1 !! k = Some userOrders'
      ∧ length userOrders' = length userOrders
      ∧ userOrders' !! i = Some order.
Proof.
  intros Hk Hi Hid r. subst r. split; [|split].
  - destruct (updateStatus_response orderId status courierId orders)
      as [[-> _]|[-> _]]; auto.
  - apply updateStatus_not_found.
  - exists (updateBucket orderId status courierId userOrders).
    rewrite updateStatus_lookup, Hk. split; [done|].
    split; [apply updateBucket_length|].
    rewrite (updateBucket_lookup _ _ _ _ _ _ Hi).
    rewrite decide_False; [done|].
    intros Hfind. apply findIndex_Some in Hfind as (x & Hx & Hp).
    rewrite Hi in Hx. injection Hx as <-.
    by apply String.eqb_eq in Hp.
Qed.

Lemma updateStatus_frame_witness :
  ∃ userOrders',
    (updateStatus "o1" PREPARING None
       {["u1" := [sampleOrder PENDING None; otherOrder]]}).1 !! "u1"
      = Some userOrders'
    ∧ userOrders' !! 1%nat = Some otherOrder.
Proof.
  destruct (updateStatus_frame "o1" PREPARING None
              {["u1" := [sampleOrder PENDING None; otherOrder]]}
              "u1" [sampleOrder PENDING None; otherOrder] 1 otherOrder)
    as (_ & _ & l & Hl & _ & Hi).
  - by vm_compute.
  - reflexivity.
  - vm_compute. intros H. discriminate H.
  - exists l. split; [exact Hl|exact Hi].
Defined.

(** One status update without a courier id keeps the courier id of every
    stored order. *)
Lemma updateStatus_keeps_courier (orderId : string) (status : OrderStatus)
    (courierId : option string) (orders : gmap string (list Order.t))
    (k : string) (userOrders : list Order.t) (i : nat) (order : Order.t) :
  truthy courierId = false →
  orders !! k = Some userOrders →
  userOrders !! i = Some order →
  ∃ userOrders' order',
    (updateStatus orderId status courierId orders).1 !! k = Some userOrders'
    ∧ userOrders' !! i = Some order'
    ∧ Order.courierId order' = Order.courierId order.
Proof.
  intros Hfalsy Hk Hi.
  eexists _, _. rewrite updateStatus_lookup, Hk. simpl.
  split; [done|]. split; [by apply updateBucket_lookup|].
  case_decide; [|done]. simpl. unfold js_or. by rewrite Hfalsy.
Qed.

(** C4.  Across any run of status updates that all omit the courier id
    (absent or falsy in the request), every stored order keeps its place in
    its bucket and its [courierId] keeps the value it had before the run:
    in particular a courier id that is set stays set to the same courier. *)
Theorem updateStatus_run_keeps_courier (requests : list StatusRequest.t)
    (orders : gmap string (list Order.t)) (k : string)
    (userOrders : list Order.t) (i : nat) (order : Order.t) :
  Forall (λ r, truthy (StatusRequest.courierId r) = false) requests →
  orders !! k = Some userOrders →
  userOrders !! i = Some order →
  ∃ userOrders' order',
    updateStatus_run requests orders !! k = Some userOrders'
    ∧ userOrders' !! i = Some order'
    ∧ Order.courierId order' = Order.courierId order.
Proof.
  intros Hall. revert orders userOrders order.
  induction Hall as [|r requests Hr _ IH]; intros orders userOrders order Hk Hi.
  - exists userOrders, order. by simpl.
  - destruct (updateStatus_keeps_courier (StatusRequest.orderId r)
                (StatusRequest.status r) (StatusRequest.courierId r)
                orders k userOrders i order Hr Hk Hi)
      as (l1 & o1 & Hk1 & Hi1 & Hc1).
    destruct (IH _ _ _ Hk1 Hi1) as (l2 & o2 & Hk2 & Hi2 & Hc2).
    exists l2, o2. simpl. split; [exact Hk2|]. split; [exact Hi2|].
    congruence.
Qed.

Lemma updateStatus_run_keeps_courier_witness :
  ∃ userOrders' order',
    updateStatus_run
      [StatusRequest.mk "o1" PICKED_UP None;
       StatusRequest.mk "o1" DELIVERED (Some "")]
      {["u1" := [sampleOrder READY (Some "c1")]]} !! "u1" = Some userOrders'
    ∧ userOrders' !! 0%nat = Some order'
    ∧ Order.courierId order' = Some "c1".
Proof.
  apply (updateStatus_run_keeps_courier
           [StatusRequest.mk "o1" PICKED_UP None;
            StatusRequest.mk "o1" DELIVERED (Some "")]
           {["u1" := [sampleOrder READY (Some "c1")]]}
           "u1" [sampleOrder READY (Some "c1")] 0
           (sampleOrder READY (Some "c1"))).
  - repeat constructor.
  - by vm_compute.
  - reflexivity.
Defined.

Lemma Legacy_updateStatus_found (orderId : string)
    (status : Legacy.OrderStatus) (userId : string)
    (orders : gmap string (list Legacy.Order.t))
    (userOrders : list Legacy.Order.t) (i : nat) :
  orders !! userId = Some userOrders →
  findIndex (λ o, String.eqb (Legacy.Order.id o) orderId) userOrders = Some i →
  let r := Legacy.updateStatus orderId status userId orders in
  r.2 = Ok tt
  ∧ ∃ userOrders' order',
      r.1 !! userId = Some userOrders'
      ∧ userOrders' !! i = Some order'
      ∧ Legacy.Order.id order' = orderId
      ∧ Legacy.Order.status order' = status.
Proof.
  intros Hk Hfind. unfold Legacy.updateStatus. rewrite Hk. simpl.
  rewrite Hfind. simpl. split; [done|].
  apply findIndex_Some in Hfind as (x & Hx & Hp).
  apply String.eqb_eq in Hp.
  exists (alter (Legacy.Order.with_status status) i userOrders),
         (Legacy.Order.with_status status x).
  rewrite lookup_insert_eq, list_lookup_alter_eq, Hx. done.
Qed.

(** C1, as stated, fails: neither server looks at the current status.  An
    order that is DELIVERED goes back to PENDING on request, and the call
    answers success. *)
Lemma updateStatus_terminal_overwritten :
  isTerminal (Order.status (sampleOrder DELIVERED None)) = true
  ∧ (updateStatus "o1" PENDING None
       {["u1" := [sampleOrder DELIVERED None]]}).2 = Ok tt
  ∧ (updateStatus "o1" PENDING None
       {["u1" := [sampleOrder DELIVERED None]]}).1 !! "u1"
    = Some [sampleOrder PENDING None]
  ∧ (Legacy.updateStatus "o1" Legacy.PENDING "u1"
       {["u1" := [legacyOrder Legacy.DELIVERED]]}).2 = Ok tt
  ∧ (Legacy.updateStatus "o1" Legacy.PENDING "u1"
       {["u1" := [legacyOrder Legacy.DELIVERED]]}).1 !! "u1"
    = Some [legacyOrder Legacy.PENDING].
Proof. repeat split; by vm_compute. Qed.

(** C1, amended.  The status handler applies the requested status whatever
    the current one, DELIVERED and CANCELLED included: when a bucket holds
    the order id, the call answers success and the first order with that id
    in the bucket carries the requested status afterwards.  The same holds
    for the older server on the bucket named by the request. *)
Theorem updateStatus_overwrites_status (orderId k : string) (i : nat) :
  (∀ status courierId (orders : gmap string (list Order.t)) userOrders,
     orders !! k = Some userOrders →
     findIndex (λ o, String.eqb (Order.id o) orderId) userOrders = Some i →
     let r := updateStatus orderId status courierId orders in
     r.2 = Ok tt
     ∧ ∃ userOrders' order',
         r.1 !! k = Some userOrders'
         ∧ userOrders' !! i = Some order'
         ∧ Order.id order' = orderId
         ∧ Order.status order' = status)
  ∧ (∀ status (orders : gmap string (list Legacy.Order.t)) userOrders,
       orders !! k = Some userOrders →
       findIndex (λ o, String.eqb (Legacy.Order.id o) orderId) userOrders
         = Some i →
       let r := Legacy.updateStatus orderId status k orders in
       r.2 = Ok tt
       ∧ ∃ userOrders' order',
           r.1 !! k = Some userOrders'
           ∧ userOrders' !! i = Some order'
           ∧ Legacy.Order.id order' = orderId
           ∧ Legacy.Order.status order' = status).
Proof.
  split.
  - intros status courierId orders userOrders Hk Hfind r. subst r. split.
    + destruct (updateStatus_response orderId status courierId orders)
        as [[-> _]|[_ Hnone]]; [done|].
      specialize (Hnone k userOrders Hk). unfold hasOrder in Hnone.
      by rewrite Hfind in Hnone.
    + destruct (findIndex_Some _ _ _ Hfind) as (x & Hx & Hp).
      apply String.eqb_eq in Hp.
      eexists _, _. rewrite updateStatus_lookup, Hk. simpl.
      split; [done|]. split.
      * rewrite (updateBucket_lookup _ _ _ _ _ _ Hx).
        by rewrite decide_True.
      * done.
  - intros status orders userOrders Hk Hfind.
    exact (Legacy_updateStatus_found orderId status k orders userOrders i
             Hk Hfind).
Qed.

Lemma updateStatus_overwrites_status_witness :
  (updateStatus "o1" ACCEPTED None
     {["u1" := [sampleOrder CANCELLED None]]}).2 = Ok tt
  ∧ (Legacy.updateStatus "o1" Legacy.ACCEPTED "u1"
       {["u1" := [legacyOrder Legacy.CANCELLED]]}).2 = Ok tt.
Proof.
  split.
  - apply (proj1 (updateStatus_overwrites_status "o1" "u1" 0) ACCEPTED None
             {["u1" := [sampleOrder CANCELLED None]]}
             [sampleOrder CANCELLED None]).
    + by vm_compute.
    + reflexivity.
  - apply (proj2 (updateStatus_overwrites_status "o1" "u1" 0) Legacy.ACCEPTED
             {["u1" := [legacyOrder Legacy.CANCELLED]]}
             [legacyOrder Legacy.CANCELLED]).
    + by vm_compute.
    + reflexivity.
Defined.

(** ** Order creation *)

(** C2, as stated, fails on its first half: the handler never compares
    totals.  An order declaring 5 for line items worth 2 is stored and the
    call answers success. *)
Lemma createOrders_accepts_inconsistent_total :
  ¬ totalConsistent (sampleOrder PENDING None)
  ∧ (createOrders "u1" (Some [sampleOrder PENDING None]) ∅).2 = Ok tt
  ∧ (createOrders "u1" (Some [sampleOrder PENDING None]) ∅).1 !! "u1"
    = Some [sampleOrder PENDING None].
Proof.
  split; [|split; by vm_compute].
  unfold totalConsistent. vm_compute. intros H. discriminate H.
Qed.

(** C2, amended.  Order creation fails with a validation error, storing
    nothing, when the batch is not an array; an array is appended to the
    owner's bucket as it is, after the orders already there, whatever the
    totals its orders declare, and no other bucket changes. *)
Theorem createOrders_validation (userId : string)
    (orders : gmap string (list Order.t)) :
  createOrders userId None orders
    = (orders, BadRequest "Invalid orders format")
  ∧ ∀ batch,
      let r := createOrders userId (Some batch) orders in
      r.2 = Ok tt
      ∧ r.1 !! userId = Some (default [] (orders !! userId) ++ batch)
      ∧ (∀ k, k ≠ userId → r.1 !! k = orders !! k)
      ∧ ∀ order, In order batch →
          ∃ bucket, r.1 !! userId = Some bucket ∧ In order bucket.
Proof.
  split; [done|]. intros batch. simpl.
  split; [done|]. split; [apply lookup_insert_eq|]. split.
  - intros k Hk. by apply lookup_insert_ne.
  - intros order Hin. eexists. split; [apply lookup_insert_eq|].
    apply in_or_app. by right.
Qed.

(** ** Messages *)

Lemma postMessage_Ok (now : Z) (newId orderId : string) (body : MessageBody.t)
    (messages messages' : gmap string (list Message.t)) (message : Message.t) :
  postMessage now newId orderId body messages = (messages', Ok message) →
  Message.timestamp message = now
  ∧ Message.orderId message = orderId
  ∧ MessageBody.chatType body = Some (Message.chatType message)
  ∧ messages' !! orderId
    = Some (default [] (messages !! orderId) ++ [message]).
Proof.
  unfold postMessage.
  destruct (MessageBody.content body) as [content|]; [|discriminate].
  destruct (MessageBody.senderId body) as [senderId|]; [|discriminate].
  destruct (MessageBody.chatType body) as [chatType|]; [|discriminate].
  destruct (negb _ || negb _); [discriminate|].
  intros [= <- <-]. simpl. by rewrite lookup_insert_eq.
Qed.

Lemma ChatType_eqb_refl (c : ChatType) : ChatType_eqb c c = true.
Proof. by destruct c. Qed.

(** The answer of a listing, whatever it writes back. *)
Lemma listMessages_answer (now : Z) (orderId : string) (type : option ChatType)
    (messages : gmap string (list Message.t)) :
  (listMessages now orderId type messages).2 =
    List.filter (isRecent now)
      (match type with
       | Some type =>
           List.filter (λ msg, ChatType_eqb (Message.chatType msg) type)
                       (default [] (messages !! orderId))
       | None => default [] (messages !! orderId)
       end).
Proof. unfold listMessages. by destruct (_ =? _)%nat. Qed.

(** The cutoff when the listing comes right after the post: a message
    posted at time [T] is in the answer of a listing of its order
    (unfiltered, or filtered on the message's own channel) made at time
    [now] exactly when [now - T] is at most 3 hours in milliseconds; it is
    listed at [T] + 2h59m and not listed at [T] + 3h01m. *)
Theorem listMessages_cutoff (T : Z) (newId orderId : string)
    (body : MessageBody.t) (messages messages' : gmap string (list Message.t))
    (message : Message.t) (type : option ChatType) :
  postMessage T newId orderId body messages = (messages', Ok message) →
  type = None ∨ type = Some (Message.chatType message) →
  (∀ now, In message (listMessages now orderId type messages').2
          ↔ now - T ≤ 3 * 60 * 60 * 1000)
  ∧ In message
       (listMessages (T + (2 * 60 + 59) * 60 * 1000) orderId type messages').2
  ∧ ¬ In message
        (listMessages (T + (3 * 60 + 1) * 60 * 1000) orderId type messages').2.
Proof.
  intros Hpost Htype.
  destruct (postMessage_Ok _ _ _ _ _ _ _ Hpost) as (Hts & _ & _ & Hstored).
  assert (Hiff : ∀ now, In message (listMessages now orderId type messages').2
                        ↔ now - T ≤ 3 * 60 * 60 * 1000).
  { intros now. rewrite listMessages_answer, Hstored. simpl.
    rewrite filter_In. unfold isRecent. rewrite Hts, Z.leb_le.
    fold THREE_HOURS.
    assert (Hin : In message
              (match type with
               | Some type0 =>
                   List.filter
                     (λ msg, ChatType_eqb (Message.chatType msg) type0)
                     (default [] (messages !! orderId) ++ [message])
               | None => default [] (messages !! orderId) ++ [message]
               end)).
    { destruct Htype as [->| ->].
      - apply in_or_app. right. by left.
      - apply filter_In. split; [|apply ChatType_eqb_refl].
        apply in_or_app. right. by left. }
    tauto. }
  split; [exact Hiff|]. split.
  - apply Hiff. lia.
  - rewrite Hiff. lia.
Qed.

Lemma listMessages_cutoff_witness :
  In (helloMessage 0)
     (listMessages ((2 * 60 + 59) * 60 * 1000) "o1" (Some RESTAURANT_CHAT)
        (postMessage 0 "m1" "o1" helloBody ∅).1).2
  ∧ ¬ In (helloMessage 0)
        (listMessages ((3 * 60 + 1) * 60 * 1000) "o1" (Some RESTAURANT_CHAT)
           (postMessage 0 "m1" "o1" helloBody ∅).1).2.
Proof.
  apply (listMessages_cutoff 0 "m1" "o1" helloBody ∅
           (postMessage 0 "m1" "o1" helloBody ∅).1 (helloMessage 0)
           (Some RESTAURANT_CHAT)).
  - reflexivity.
  - right. reflexivity.
Defined.

(** The message sweep uses the same cutoff: it keeps a bucket's messages
    of age at most 3 hours and deletes a bucket left empty. *)
Lemma sweepMessages_lookup (now : Z) (messages : gmap string (list Message.t))
    (k : string) :
  sweepMessages now messages !! k
  = messages !! k ≫= sweepBucket (isRecent now).
Proof. apply sweep_lookup. Qed.

(** C3 on the code: after one RESTAURANT_CHAT message is posted to [o1],
    the COURIER_CHAT listing answers with the empty sequence and writes
    that empty sequence back as the thread of [o1]; the RESTAURANT_CHAT
    listing that follows therefore answers with the empty sequence too,
    although the message is only two minutes old.  Without the listing in
    between, the same RESTAURANT_CHAT listing answers with the message. *)
Lemma listMessages_other_channel_erases :
  let posted := postMessage 0 "m1" "o1" helloBody ∅ in
  let courier := listMessages 60000 "o1" (Some COURIER_CHAT) posted.1 in
  let restaurant := listMessages 120000 "o1" (Some RESTAURANT_CHAT) courier.1 in
  posted.2 = Ok (helloMessage 0)
  ∧ posted.1 !! "o1" = Some [helloMessage 0]
  ∧ courier.2 = []
  ∧ courier.1 !! "o1" = Some []
  ∧ restaurant.2 = []
  ∧ (listMessages 120000 "o1" (Some RESTAURANT_CHAT) posted.1).2
    = [helloMessage 0].
Proof. repeat split; by vm_compute. Qed.

(** The loss does not depend on the sample: whenever a listing filtered on
    one channel finds a thread holding a message of the other channel, the
    thread it writes back has lost that message. *)
Lemma listMessages_filter_written_back (now : Z) (orderId : string)
    (type : ChatType) (messages : gmap string (list Message.t))
    (thread : list Message.t) (message : Message.t) :
  messages !! orderId = Some thread →
  In message thread →
  ChatType_eqb (Message.chatType message) type = false →
  ∃ thread', (listMessages now orderId (Some type) messages).1 !! orderId
             = Some thread'
             ∧ ¬ In message thread'.
Proof.
  intros Hk Hin Hother. unfold listMessages. rewrite Hk. simpl.
  set (byType := List.filter _ thread).
  assert (Hnot : ¬ In message (List.filter (isRecent now) byType)).
  { rewrite filter_In. unfold byType. rewrite filter_In. intros [[_ H] _].
    congruence. }
  destruct (_ =? _)%nat eqn:Hlen.
  - apply Nat.eqb_eq in Hlen. exfalso.
    assert (Hle1 : (length (List.filter (isRecent now) byType)
                    ≤ length byType)%nat) by apply filter_length_le.
    assert (Hlt : (length byType < length thread)%nat).
    { unfold byType. clear -Hin Hother.
      induction thread as [|x thread IH]; [done|]. simpl.
      destruct Hin as [->|Hin].
      - rewrite Hother.
        pose proof (filter_length_le
          (λ msg, ChatType_eqb (Message.chatType msg) type) thread). lia.
      - specialize (IH Hin).
        destruct (ChatType_eqb (Message.chatType x) type); simpl; lia. }
    lia.
  - simpl. eexists. split; [apply lookup_insert_eq|exact Hnot].
Qed.

(** ** Restaurants *)

(** C10.  An upsert without an image, with a non-empty id and name, of a
    restaurant that exists replaces the stored restaurant (the first with
    that id) by one with the new name, the new active flag (true exactly
    for the form value "true") and the current time, and with the
    [coverImage] that was stored before; the other restaurants stay. *)
Theorem upsertRestaurant_keeps_coverImage (now : Z) (id name : string)
    (isActive : option string) (otherKeys : list string)
    (restaurants : list Restaurant.t) (i : nat) (existing : Restaurant.t) :
  id ≠ EmptyString →
  name ≠ EmptyString →
  findIndex (λ r, String.eqb (Restaurant.id r) id) restaurants = Some i →
  restaurants !! i = Some existing →
  let body := RestaurantBody.mk (Some id) (Some name) isActive otherKeys in
  let r := upsertRestaurant now None body restaurants in
  ∃ saved,
    r.2 = Ok (Saved saved)
    ∧ r.1 !! i = Some saved
    ∧ Restaurant.coverImage saved = Restaurant.coverImage existing
    ∧ Restaurant.id saved = id
    ∧ Restaurant.name saved = name
    ∧ Restaurant.isActive saved
      = match isActive with Some s => String.eqb s "true" | None => false end
    ∧ Restaurant.updatedAt saved = now
    ∧ length r.1 = length restaurants
    ∧ ∀ j, j ≠ i → r.1 !! j = restaurants !! j.
Proof.
  intros Hid Hname Hfind Hi body r. subst r body.
  unfold upsertRestaurant. simpl.
  apply String.eqb_neq in Hid, Hname. rewrite Hid, Hname. simpl.
  rewrite Hfind, Hi. simpl.
  eexists. split; [done|].
  split.
  { apply list_lookup_insert_eq. by eapply lookup_lt_Some. }
  repeat (split; [done|]).
  split; [apply length_insert|].
  intros j Hj. by apply list_lookup_insert_ne.
Qed.

Lemma upsertRestaurant_keeps_coverImage_witness :
  ∃ saved,
    (upsertRestaurant 99 None
       (RestaurantBody.mk (Some "r1") (Some "Brasserie") (Some "false") [])
       [bistro]).2 = Ok (Saved saved)
    ∧ Restaurant.coverImage saved = Some "/uploads/image-1.png"
    ∧ Restaurant.name saved = "Brasserie".
Proof.
  destruct (upsertRestaurant_keeps_coverImage 99 "r1" "Brasserie"
              (Some "false") [] [bistro] 0 bistro)
    as (saved & Hresp & _ & Hcover & _ & Hname & _).
  - intros H. discriminate H.
  - intros H. discriminate H.
  - reflexivity.
  - reflexivity.
  - exists saved. split; [exact Hresp|]. split; [exact Hcover|exact Hname].
Defined.

(** * Further properties of the handlers *)

(** ** More on [findIndex] *)

Lemma find_findIndex {A : Type} (p : A → bool) (l : list A) :
  List.find p l = match findIndex p l with
                  | Some i => l !! i
                  | None => None
                  end.
Proof.
  induction l as [|x l IH]; simpl; [done|].
  destruct (p x); [done|]. rewrite IH.
  by destruct (findIndex p l).
Qed.

Lemma findIndex_insert {A : Type} (p : A → bool) (l : list A) (i : nat)
    (x : A) :
  findIndex p l = Some i → p x = true → findIndex p (<[i:=x]> l) = Some i.
Proof.
  revert i. induction l as [|y l IH]; intros i; simpl; [discriminate|].
  destruct (p y) eqn:Hy.
  - intros [= <-] Hx. simpl. by rewrite Hx.
  - destruct (findIndex p l) as [j|] eqn:Hj; [|discriminate].
    intros [= <-] Hx. simpl. rewrite Hy. by rewrite (IH j).
Qed.

Lemma findIndex_app_new {A : Type} (p : A → bool) (l : list A) (x : A) :
  findIndex p l = None → p x = true →
  findIndex p (l ++ [x]) = Some (length l).
Proof.
  induction l as [|y l IH]; simpl; intros Hnone Hx; [by rewrite Hx|].
  destruct (p y); [discriminate|].
  destruct (findIndex p l); [discriminate|]. by rewrite IH.
Qed.

(** ** Restaurants, continued *)

(** What a successful save did to the list. *)
Lemma upsertRestaurant_Saved (now : Z) (file : option string)
    (body : RestaurantBody.t) (restaurants : list Restaurant.t)
    (saved : Restaurant.t) :
  (upsertRestaurant now file body restaurants).2 = Ok (Saved saved) →
  RestaurantBody.id body = Some (Restaurant.id saved)
  ∧ Restaurant.id saved ≠ EmptyString
  ∧ Restaurant.isActive saved
    = match RestaurantBody.isActive body with
      | Some s => String.eqb s "true"
      | None => false
      end
  ∧ let p := λ r, String.eqb (Restaurant.id r) (Restaurant.id saved) in
    (∃ i, findIndex p restaurants = Some i
          ∧ (upsertRestaurant now file body restaurants).1
            = <[i := saved]> restaurants)
    ∨ (findIndex p restaurants = None
       ∧ (upsertRestaurant now file body restaurants).1
         = restaurants ++ [saved]).
Proof.
  unfold upsertRestaurant.
  assert (Hmain :
    (let r :=
       if negb (truthy (RestaurantBody.id body))
          || negb (truthy (RestaurantBody.name body))
       then (restaurants, BadRequest "Missing required fields")
       else
         let id := default EmptyString (RestaurantBody.id body) in
         let name := default EmptyString (RestaurantBody.name body) in
         let existingIndex :=
           findIndex (λ r, String.eqb (Restaurant.id r) id) restaurants in
         let existingCoverImage :=
           match existingIndex with
           | Some i =>
               match restaurants !! i with
               | Some existing => Restaurant.coverImage existing
               | None => None
               end
           | None => None
           end in
         let restaurant :=
           Restaurant.mk id name
             (match file with
              | Some filename => Some (uploadsUrl filename)
              | None => existingCoverImage
              end)
             (match RestaurantBody.isActive body with
              | Some s => String.eqb s "true"
              | None => false
              end)
             now in
         match existingIndex with
         | Some i => (<[i := restaurant]> restaurants, Ok (Saved restaurant))
         | None => (restaurants ++ [restaurant], Ok (Saved restaurant))
         end in
     r.2 = Ok (Saved saved) →
     RestaurantBody.id body = Some (Restaurant.id saved)
     ∧ Restaurant.id saved ≠ EmptyString
     ∧ Restaurant.isActive saved
       = match RestaurantBody.isActive body with
         | Some s => String.eqb s "true"
         | None => false
         end
     ∧ let p := λ r, String.eqb (Restaurant.id r) (Restaurant.id saved) in
       (∃ i, findIndex p restaurants = Some i
             ∧ r.1 = <[i := saved]> restaurants)
       ∨ (findIndex p restaurants = None ∧ r.1 = restaurants ++ [saved]))).
  { destruct (RestaurantBody.id body) as [id|]; simpl; [|discriminate].
    destruct (String.eqb id EmptyString) eqn:Hid; simpl; [discriminate|].
    destruct (negb (truthy (RestaurantBody.name body))); simpl;
      [discriminate|].
    apply String.eqb_neq in Hid.
    destruct (findIndex (λ r, String.eqb (Restaurant.id r) id) restaurants)
      as [i|] eqn:Hfind; simpl; intros [= <-]; simpl;
      (split; [done|]); (split; [done|]); (split; [done|]).
    - left. by exists i.
    - by right. }
  destruct file as [filename|]; [|exact Hmain].
  destruct (RestaurantBody.isEmpty body); [discriminate|exact Hmain].
Qed.

(** X1.  Saving a restaurant keeps the ids of the list pairwise distinct. *)
Theorem upsertRestaurant_ids_unique (now : Z) (file : option string)
    (body : RestaurantBody.t) (restaurants : list Restaurant.t) :
  NoDup (map Restaurant.id restaurants) →
  NoDup (map Restaurant.id (upsertRestaurant now file body restaurants).1).
Proof.
  intros Hnodup.
  destruct (upsertRestaurant now file body restaurants).2 as [[u|saved]|e|e]
    eqn:Hresp.
  - revert Hresp. unfold upsertRestaurant.
    destruct file; [destruct (RestaurantBody.isEmpty body); [done|]|];
      destruct (negb _ || negb _); try discriminate;
      destruct (findIndex _ restaurants); discriminate.
  - destruct (upsertRestaurant_Saved _ _ _ _ _ Hresp)
      as (_ & _ & _ & [(i & Hfind & ->)|(Hfind & ->)]).
    + apply findIndex_Some in Hfind as (x & Hx & Hp).
      apply String.eqb_eq in Hp.
      change (map Restaurant.id (<[i:=saved]> restaurants))
        with (Restaurant.id <$> <[i:=saved]> restaurants).
      rewrite list_fmap_insert, list_insert_id; [exact Hnodup|].
      by rewrite list_lookup_fmap, Hx, <- Hp.
    + rewrite map_app. simpl. apply NoDup_app. split; [exact Hnodup|].
      split; [|apply NoDup_singleton].
      intros y Hy Hin. apply list_elem_of_singleton in Hin as ->.
      apply list_elem_of_In, in_map_iff in Hy as (r & Hr & Hin).
      apply list_elem_of_In, list_elem_of_lookup in Hin as (j & Hj).
      pose proof (findIndex_None _ _ Hfind j r Hj) as Hp. simpl in Hp.
      apply String.eqb_neq in Hp. done.
  - revert Hresp. unfold upsertRestaurant.
    destruct file; [destruct (RestaurantBody.isEmpty body); [done|]|];
      destruct (negb _ || negb _); try done;
      destruct (findIndex _ restaurants); discriminate.
  - revert Hresp. unfold upsertRestaurant.
    destruct file; [destruct (RestaurantBody.isEmpty body); [done|]|];
      destruct (negb _ || negb _); try done;
      destruct (findIndex _ restaurants); discriminate.
Qed.

Lemma upsertRestaurant_ids_unique_witness :
  NoDup (map Restaurant.id
           (upsertRestaurant 99 (Some "image-2.png")
              (RestaurantBody.mk (Some "r2") (Some "Cantina") (Some "true") [])
              [bistro]).1).
Proof.
  apply (upsertRestaurant_ids_unique 99 (Some "image-2.png")
           (RestaurantBody.mk (Some "r2") (Some "Cantina") (Some "true") [])
           [bistro]).
  simpl. apply NoDup_singleton.
Defined.

(** X2.  A restaurant that was saved is the one [getRestaurant] returns
    for its id right afterwards. *)
Theorem upsertRestaurant_getRestaurant (now : Z) (file : option string)
    (body : RestaurantBody.t) (restaurants : list Restaurant.t)
    (saved : Restaurant.t) :
  (upsertRestaurant now file body restaurants).2 = Ok (Saved saved) →
  getRestaurant (Restaurant.id saved)
    (upsertRestaurant now file body restaurants).1 = Ok saved.
Proof.
  intros Hresp.
  assert (Hp : String.eqb (Restaurant.id saved) (Restaurant.id saved) = true)
    by apply String.eqb_refl.
  unfold getRestaurant. rewrite find_findIndex.
  destruct (upsertRestaurant_Saved _ _ _ _ _ Hresp)
    as (_ & _ & _ & [(i & Hfind & ->)|(Hfind & ->)]).
  - rewrite (findIndex_insert _ _ _ _ Hfind Hp).
    apply findIndex_Some in Hfind as (x & Hx & _).
    rewrite list_lookup_insert_eq; [done|]. by eapply lookup_lt_Some.
  - rewrite (findIndex_app_new _ _ _ Hfind Hp).
    by rewrite lookup_app_r, Nat.sub_diag.
Qed.

Lemma upsertRestaurant_getRestaurant_witness :
  getRestaurant "r2"
    (upsertRestaurant 99 None
       (RestaurantBody.mk (Some "r2") (Some "Cantina") None []) [bistro]).1
  = Ok (Restaurant.mk "r2" "Cantina" None false 99).
Proof.
  apply (upsertRestaurant_getRestaurant 99 None
           (RestaurantBody.mk (Some "r2") (Some "Cantina") None []) [bistro]
           (Restaurant.mk "r2" "Cantina" None false 99)).
  reflexivity.
Defined.

(** The three ways the handler can answer. *)
Lemma upsertRestaurant_cases (now : Z) (file : option string)
    (body : RestaurantBody.t) (restaurants : list Restaurant.t) :
  let r := upsertRestaurant now file body restaurants in
  (∃ filename, file = Some filename
     ∧ RestaurantBody.isEmpty body = true
     ∧ r.1 = restaurants
     ∧ r.2 = Ok (ImageUrl (String.append "/uploads/" filename)))
  ∨ ((file = None ∨ RestaurantBody.isEmpty body = false)
     ∧ (truthy (RestaurantBody.id body) = false
        ∨ truthy (RestaurantBody.name body) = false)
     ∧ r.1 = restaurants ∧ r.2 = BadRequest "Missing required fields")
  ∨ ((file = None ∨ RestaurantBody.isEmpty body = false)
     ∧ truthy (RestaurantBody.id body) = true
     ∧ truthy (RestaurantBody.name body) = true
     ∧ ∃ saved, r.2 = Ok (Saved saved)).
Proof.
  unfold upsertRestaurant.
  assert (Hgate : (is_Some file ∧ RestaurantBody.isEmpty body = true)
                  ∨ (file = None ∨ RestaurantBody.isEmpty body = false)).
  { destruct file; [|by right; left].
    destruct (RestaurantBody.isEmpty body); [left|right; right]; eauto. }
  destruct Hgate as [[[filename ->] Hempty]|Hgate].
  { rewrite Hempty. left. exists filename. simpl. done. }
  right.
  destruct (truthy (RestaurantBody.id body)) eqn:Hid;
    destruct (truthy (RestaurantBody.name body)) eqn:Hname; simpl.
  - right. split; [done|]. split; [done|]. split; [done|].
    destruct file as [filename|];
      [destruct (RestaurantBody.isEmpty body);
         [by destruct Hgate|]|];
      destruct (findIndex _ restaurants); simpl; by eexists.
  - left. split; [done|]. split; [by right|].
    destruct file as [filename|];
      [destruct (RestaurantBody.isEmpty body); [by destruct Hgate|]|];
      done.
  - left. split; [done|]. split; [by left|].
    destruct file as [filename|];
      [destruct (RestaurantBody.isEmpty body); [by destruct Hgate|]|];
      done.
  - left. split; [done|]. split; [by left|].
    destruct file as [filename|];
      [destruct (RestaurantBody.isEmpty body); [by destruct Hgate|]|];
      done.
Qed.

Lemma upsertRestaurant_not_saved (now : Z) (file : option string)
    (body : RestaurantBody.t) (restaurants : list Restaurant.t) :
  (∀ saved, (upsertRestaurant now file body restaurants).2
            ≠ Ok (Saved saved)) →
  (upsertRestaurant now file body restaurants).1 = restaurants.
Proof.
  intros Hno.
  destruct (upsertRestaurant_cases now file body restaurants)
    as [(_ & _ & _ & H & _)|[(_ & _ & H & _)|(_ & _ & _ & saved & H)]];
    [done|done|]. by destruct (Hno saved).
Qed.

(** X3.  The save is refused with a 400, "Missing required fields",
    exactly when the request is not a bare image upload and its id or its
    name is missing or empty; a bare image upload (a file and no form
    field), and no other request, answers with an image address, which is
    "/uploads/" followed by the stored name of the uploaded file; the
    handler never answers 404; whenever no restaurant is saved the list is
    left as it was. *)
Theorem upsertRestaurant_refusal (now : Z) (file : option string)
    (body : RestaurantBody.t) (restaurants : list Restaurant.t) :
  let r := upsertRestaurant now file body restaurants in
  (∀ e, r.2 = BadRequest e ↔
     e = "Missing required fields"
     ∧ (file = None ∨ RestaurantBody.isEmpty body = false)
     ∧ (truthy (RestaurantBody.id body) = false
        ∨ truthy (RestaurantBody.name body) = false))
  ∧ (∀ u, r.2 = Ok (ImageUrl u) ↔
       ∃ filename, file = Some filename
                   ∧ RestaurantBody.isEmpty body = true
                   ∧ u = String.append "/uploads/" filename)
  ∧ (∀ e, r.2 ≠ NotFound e)
  ∧ ((∀ saved, r.2 ≠ Ok (Saved saved)) → r.1 = restaurants).
Proof.
  intros r. subst r.
  split; [|split; [|split; [|apply upsertRestaurant_not_saved]]].
  - intros e.
    destruct (upsertRestaurant_cases now file body restaurants)
      as [(f & -> & He & _ & ->)|[(Hg & Hm & _ & ->)
                                 |(Hg & Hi & Hn & saved & ->)]].
    + split; [discriminate|]. intros (_ & [?|?] & _); congruence.
    + split; [by intros [= <-]|]. by intros (-> & _).
    + split; [discriminate|]. intros (_ & _ & [?|?]); congruence.
  - intros u.
    destruct (upsertRestaurant_cases now file body restaurants)
      as [(f & -> & He & _ & ->)|[(Hg & Hm & _ & ->)
                                 |(Hg & Hi & Hn & saved & ->)]].
    + split.
      * intros [= <-]. by exists f.
      * by intros (f' & [= <-] & _ & ->).
    + split; [discriminate|]. intros (f & -> & He & _).
      destruct Hg; congruence.
    + split; [discriminate|]. intros (f & -> & He & _).
      destruct Hg; congruence.
  - intros e.
    destruct (upsertRestaurant_cases now file body restaurants)
      as [(f & _ & _ & _ & ->)|[(_ & _ & _ & ->)
                               |(_ & _ & _ & saved & ->)]];
      discriminate.
Qed.

(** X4.  A restaurant that was just saved appears in the listing exactly
    when the listing asks for all restaurants or the form carried the
    literal value "true" as [isActive]. *)
Theorem upsertRestaurant_listed (now : Z) (file : option string)
    (body : RestaurantBody.t) (restaurants : list Restaurant.t)
    (saved : Restaurant.t) (type : option string) :
  (upsertRestaurant now file body restaurants).2 = Ok (Saved saved) →
  In saved
     (listRestaurants type (upsertRestaurant now file body restaurants).1)
  ↔ type = Some "all" ∨ RestaurantBody.isActive body = Some "true".
Proof.
  intros Hresp.
  destruct (upsertRestaurant_Saved _ _ _ _ _ Hresp)
    as (_ & _ & Hactive & Hlist).
  assert (Hin : In saved (upsertRestaurant now file body restaurants).1).
  { destruct Hlist as [(i & Hfind & ->)|(_ & ->)].
    - apply findIndex_Some in Hfind as (x & Hx & _).
      apply list_elem_of_In, list_elem_of_lookup. exists i.
      apply list_lookup_insert_eq. by eapply lookup_lt_Some.
    - apply in_or_app. right. by left. }
  unfold listRestaurants.
  destruct type as [t|].
  - destruct (String.eqb t "all") eqn:Ht.
    + apply String.eqb_eq in Ht as ->. split; [by left|done].
    + apply String.eqb_neq in Ht. rewrite filter_In, Hactive. split.
      * intros [_ H]. right.
        destruct (RestaurantBody.isActive body) as [s|]; [|done].
        by apply String.eqb_eq in H as ->.
      * intros [[= ->]|H]; [done|]. rewrite H. done.
  - rewrite filter_In, Hactive. split.
    + intros [_ H]. right.
      destruct (RestaurantBody.isActive body) as [s|]; [|done].
      by apply String.eqb_eq in H as ->.
    + intros [|H]; [done|]. rewrite H. done.
Qed.

Lemma upsertRestaurant_listed_witness :
  ¬ In (Restaurant.mk "r2" "Cantina" None false 99)
       (listRestaurants None
          (upsertRestaurant 99 None
             (RestaurantBody.mk (Some "r2") (Some "Cantina") (Some "TRUE") [])
             [bistro]).1).
Proof.
  intros Hin.
  apply (upsertRestaurant_listed 99 None
           (RestaurantBody.mk (Some "r2") (Some "Cantina") (Some "TRUE") [])
           [bistro] (Restaurant.mk "r2" "Cantina" None false 99) None)
    in Hin.
  - destruct Hin as [H|H]; discriminate H.
  - reflexivity.
Defined.

(** X5.  Whatever the request, a stored restaurant whose id is not the id
    of the form stays at its place, unchanged. *)
Theorem upsertRestaurant_frame (now : Z) (file : option string)
    (body : RestaurantBody.t) (restaurants : list Restaurant.t)
    (j : nat) (other : Restaurant.t) :
  restaurants !! j = Some other →
  RestaurantBody.id body ≠ Some (Restaurant.id other) →
  (upsertRestaurant now file body restaurants).1 !! j = Some other.
Proof.
  intros Hj Hid.
  destruct (upsertRestaurant now file body restaurants).2 as [[u|saved]|e|e]
    eqn:Hresp.
  2: { destruct (upsertRestaurant_Saved _ _ _ _ _ Hresp)
         as (Hbody & _ & _ & [(i & Hfind & ->)|(_ & ->)]).
       - apply findIndex_Some in Hfind as (x & Hx & Hp).
         apply String.eqb_eq in Hp.
         rewrite list_lookup_insert_ne; [done|]. intros ->.
         rewrite Hj in Hx. injection Hx as <-. congruence.
       - by apply lookup_app_l_Some. }
  all: rewrite upsertRestaurant_not_saved; [done|];
    intros saved; rewrite Hresp; discriminate.
Qed.

Lemma upsertRestaurant_frame_witness :
  (upsertRestaurant 99 None
     (RestaurantBody.mk (Some "r2") (Some "Cantina") None []) [bistro]).1
    !! 0%nat = Some bistro.
Proof.
  apply (upsertRestaurant_frame 99 None
           (RestaurantBody.mk (Some "r2") (Some "Cantina") None []) [bistro]
           0 bistro).
  - reflexivity.
  - intros H. discriminate H.
Defined.

(** ** Menus, continued *)

(** The loops that delete single expired entries (menus, couriers). *)
Lemma expiry_loop_lookup {A : Type} (expired : A → bool)
    (m : gmap string A) (k : string) :
  map_fold (λ id x acc, if expired x then delete id acc else acc) m m !! k
  = match m !! k with
    | Some x => if expired x then None else Some x
    | None => None
    end.
Proof.
  assert (Hgen : ∀ m0 : gmap string A, m ⊆ m0 →
    map_fold (λ id x acc, if expired x then delete id acc else acc) m0 m !! k
    = match m !! k with
      | Some x => if expired x then None else Some x
      | None => m0 !! k
      end).
  { intros m0.
    apply (map_fold_weak_ind
      (λ r m, m ⊆ m0 →
         r !! k = match m !! k with
                  | Some x => if expired x then None else Some x
                  | None => m0 !! k
                  end)); clear m.
    - intros _. by rewrite lookup_empty.
    - intros i x m r Hi IH Hsub.
      assert (Hm : m ⊆ m0).
      { etrans; [|exact Hsub]. by apply insert_subseteq. }
      assert (Hx : m0 !! i = Some x).
      { eapply lookup_weaken; [|exact Hsub]. apply lookup_insert_eq. }
      specialize (IH Hm).
      destruct (decide (i = k)) as [->|Hne].
      + rewrite lookup_insert_eq. destruct (expired x).
        * apply lookup_delete_eq.
        * by rewrite IH, Hi.
      + rewrite (lookup_insert_ne m) by done. destruct (expired x).
        * rewrite lookup_delete_ne by done. apply IH.
        * apply IH. }
  rewrite Hgen by done. by destruct (m !! k).
Qed.

Lemma sweepMenus_lookup (now : Z) (tempMenus : gmap string MenuData.t)
    (k : string) :
  sweepMenus now tempMenus !! k
  = match tempMenus !! k with
    | Some data =>
        if now - MenuData.timestamp data >? TWENTY_FOUR_HOURS
        then None else Some data
    | None => None
    end.
Proof.
  unfold sweepMenus.
  apply (expiry_loop_lookup
           (λ data, now - MenuData.timestamp data >? TWENTY_FOUR_HOURS)).
Qed.

(** X6.  Setting the menu of one restaurant does not change what a read of
    the menu of another restaurant answers, at any time of reading; a body
    whose [items] is not an array is refused and changes no menu at all. *)
Theorem setMenu_frame (now now' : Z) (restaurantId other : string)
    (items : option (list MenuItem.t)) (tempMenus : gmap string MenuData.t) :
  other ≠ restaurantId →
  (getMenu now' other (setMenu now restaurantId items tempMenus).1).2
  = (getMenu now' other tempMenus).2
  ∧ (items = None →
     setMenu now restaurantId items tempMenus
     = (tempMenus, BadRequest "Invalid menu items format")).
Proof.
  intros Hne. split; [|by intros ->].
  destruct items as [items|]; [|done]. simpl.
  unfold getMenu. rewrite lookup_insert_ne by done.
  destruct (tempMenus !! other) as [menuData|]; [|done].
  by destruct (_ >? _).
Qed.

Lemma setMenu_frame_witness :
  (getMenu 30 "r2"
     (setMenu 20 "r1" (Some [])
        {["r2" := MenuData.mk [soup] 10]}).1).2
  = Ok [soup].
Proof.
  rewrite (proj1 (setMenu_frame 20 30 "r1" "r2" (Some [])
                    {["r2" := MenuData.mk [soup] 10]}
                    ltac:(intros H; discriminate H))).
  reflexivity.
Defined.

(** X7.  Reading a menu twice at the same time gives the same answer and
    the second read changes nothing; once a read has answered 404, every
    read of that restaurant on the store it left answers 404, whatever the
    time, until a menu is set again. *)
Theorem getMenu_stable (now : Z) (restaurantId : string)
    (tempMenus : gmap string MenuData.t) :
  let g := getMenu now restaurantId tempMenus in
  getMenu now restaurantId g.1 = g
  ∧ ((∃ e, g.2 = NotFound e) →
     ∀ now', getMenu now' restaurantId g.1 = g).
Proof.
  unfold getMenu.
  destruct (tempMenus !! restaurantId) as [menuData|] eqn:Hget.
  - destruct (_ >? _) eqn:Hage; simpl.
    + rewrite lookup_delete_eq, delete_delete_eq. by split.
    + rewrite Hget, Hage. split; [done|]. by intros [e ?].
  - simpl. rewrite lookup_delete_eq, delete_delete_eq. by split.
Qed.

(** X8.  The menu sweep keeps an entry exactly when its age is at most 24
    hours, unchanged, and creates none. *)
Theorem sweepMenus_retention (now : Z) (tempMenus : gmap string MenuData.t)
    (k : string) (data : MenuData.t) :
  sweepMenus now tempMenus !! k = Some data
  ↔ tempMenus !! k = Some data
    ∧ now - MenuData.timestamp data ≤ 24 * 60 * 60 * 1000.
Proof.
  rewrite sweepMenus_lookup. fold TWENTY_FOUR_HOURS.
  destruct (tempMenus !! k) as [d|]; [|by split; [|intros []]].
  destruct (_ >? _) eqn:Hage.
  - apply gtb_true_gt in Hage. split; [done|]. intros [[= ->] ?]. lia.
  - apply gtb_false_le in Hage. split.
    + by intros [= ->].
    + by intros [[= ->] _].
Qed.

(** X9.  A sweep is not visible through the menu endpoint: a read at the
    time of the sweep or later answers the same on the swept store as on
    the store before the sweep. *)
Theorem sweepMenus_getMenu (now now' : Z) (restaurantId : string)
    (tempMenus : gmap string MenuData.t) :
  now ≤ now' →
  (getMenu now' restaurantId (sweepMenus now tempMenus)).2
  = (getMenu now' restaurantId tempMenus).2.
Proof.
  intros Hle. unfold getMenu. rewrite sweepMenus_lookup.
  destruct (tempMenus !! restaurantId) as [menuData|]; [|done].
  destruct (now - _ >? _) eqn:Hage.
  - apply gtb_true_gt in Hage.
    assert (H : (now' - MenuData.timestamp menuData >? TWENTY_FOUR_HOURS) = true)
      by (apply gtb_true_gt; lia).
    by rewrite H.
  - by destruct (now' - _ >? _).
Qed.

Lemma sweepMenus_getMenu_witness :
  (getMenu 200 "r1" (sweepMenus 100 {["r1" := MenuData.mk [soup] 10]})).2
  = Ok [soup].
Proof.
  rewrite (sweepMenus_getMenu 100 200 "r1" {["r1" := MenuData.mk [soup] 10]}
             ltac:(lia)).
  reflexivity.
Defined.

(** ** Order listings *)

Lemma allOrders_In (orders : gmap string (list Order.t)) (order : Order.t) :
  In order (allOrders orders)
  ↔ ∃ k bucket, orders !! k = Some bucket ∧ In order bucket.
Proof.
  unfold allOrders. rewrite in_concat. split.
  - intros (bucket & Hb & Hin).
    apply in_map_iff in Hb as ([k b] & Heq & Hkb). simpl in Heq. subst b.
    apply list_elem_of_In, elem_of_map_to_list in Hkb. eauto.
  - intros (k & bucket & Hk & Hin). exists bucket. split; [|done].
    apply in_map_iff. exists (k, bucket). split; [done|].
    by apply list_elem_of_In, elem_of_map_to_list.
Qed.

(** X10.  The order listing answers with exactly the stored orders, taken
    from every bucket whatever its key, that match the role (the order's
    [userId] for "customer", its [courierId] for "courier", its
    [restaurantId] for any other or no role) and are at most 24 hours
    old. *)
Theorem listOrders_membership (now : Z) (userId : string)
    (type : option string) (orders : gmap string (list Order.t))
    (order : Order.t) :
  In order (listOrders now userId type orders)
  ↔ (∃ k bucket, orders !! k = Some bucket ∧ In order bucket)
    ∧ (if decide (type = Some "customer") then Order.userId order = userId
       else if decide (type = Some "courier")
            then Order.courierId order = Some userId
            else Order.restaurantId order = userId)
    ∧ now - Order.createdAt order ≤ 24 * 60 * 60 * 1000.
Proof.
  unfold listOrders. rewrite !filter_In, allOrders_In, Z.leb_le.
  fold TWENTY_FOUR_HOURS.
  assert (Hrole : matchesRole userId type order = true
    ↔ (if decide (type = Some "customer") then Order.userId order = userId
       else if decide (type = Some "courier")
            then Order.courierId order = Some userId
            else Order.restaurantId order = userId)).
  { unfold matchesRole, isCourier.
    destruct type as [t|].
    - destruct (String.eqb t "customer") eqn:Hc.
      + apply String.eqb_eq in Hc as ->. rewrite decide_True by done.
        apply String.eqb_eq.
      + apply String.eqb_neq in Hc.
        rewrite decide_False by congruence.
        destruct (String.eqb t "courier") eqn:Hk.
        * apply String.eqb_eq in Hk as ->. rewrite decide_True by done.
          destruct (Order.courierId order) as [c|].
          -- rewrite String.eqb_eq. split; [by intros ->|by intros [= ->]].
          -- split; discriminate.
        * apply String.eqb_neq in Hk. rewrite decide_False by congruence.
          apply String.eqb_eq.
    - rewrite !decide_False by done. apply String.eqb_eq. }
  rewrite Hrole. tauto.
Qed.

(** X11.  An order that is neither DELIVERED nor CANCELLED and older than
    24 hours stays in its bucket through the sweep, yet no order listing
    shows it, for any user and any role. *)
Theorem stale_active_order_hidden (now : Z)
    (orders : gmap string (list Order.t)) (k : string)
    (bucket : list Order.t) (order : Order.t) :
  orders !! k = Some bucket →
  In order bucket →
  isTerminal (Order.status order) = false →
  TWENTY_FOUR_HOURS < now - Order.createdAt order →
  (∃ bucket', sweepOrders now orders !! k = Some bucket' ∧ In order bucket')
  ∧ ∀ userId type,
      ¬ In order (listOrders now userId type orders)
      ∧ ¬ In order (listOrders now userId type (sweepOrders now orders)).
Proof.
  intros Hk Hin Hterm Hage.
  assert (Hkeep : isActiveOrder now order = true).
  { unfold isActiveOrder. unfold isTerminal in Hterm.
    apply orb_false_iff in Hterm as [-> ->]. done. }
  assert (Hkept : In order (List.filter (isActiveOrder now) bucket))
    by (by apply filter_In).
  split.
  - unfold sweepOrders. rewrite sweep_lookup, Hk. simpl. unfold sweepBucket.
    destruct (List.filter (isActiveOrder now) bucket) as [|x l] eqn:Hf;
      [done|]. simpl. eexists. split; [done|]. exact Hkept.
  - intros userId type.
    split; unfold listOrders; rewrite filter_In, Z.leb_le; intros [_ ?]; lia.
Qed.

Lemma stale_active_order_hidden_witness :
  (∃ bucket',
     sweepOrders 90000000 {["u1" := [sampleOrder PENDING None]]} !! "u1"
       = Some bucket'
     ∧ In (sampleOrder PENDING None) bucket')
  ∧ ¬ In (sampleOrder PENDING None)
        (listOrders 90000000 "u1" (Some "customer")
           {["u1" := [sampleOrder PENDING None]]}).
Proof.
  destruct (stale_active_order_hidden 90000000
              {["u1" := [sampleOrder PENDING None]]} "u1"
              [sampleOrder PENDING None] (sampleOrder PENDING None))
    as [Hkept Hhidden].
  - by vm_compute.
  - by left.
  - reflexivity.
  - by vm_compute.
  - split; [exact Hkept|]. apply Hhidden.
Defined.

(** X12.  The list of available orders has no age limit: an order that is
    READY and has no courier is offered before and after every sweep,
    however old it is. *)
Theorem listAvailable_ignores_age (now : Z)
    (orders : gmap string (list Order.t)) (k : string)
    (bucket : list Order.t) (order : Order.t) :
  orders !! k = Some bucket →
  In order bucket →
  Order.status order = READY →
  truthy (Order.courierId order) = false →
  In order (listAvailable orders)
  ∧ In order (listAvailable (sweepOrders now orders)).
Proof.
  intros Hk Hin Hready Hfree.
  assert (Havail : OrderStatus_eqb (Order.status order) READY
                   && negb (truthy (Order.courierId order)) = true)
    by (by rewrite Hready, Hfree).
  split; unfold listAvailable; apply filter_In; (split; [|exact Havail]);
    apply allOrders_In.
  - eauto.
  - assert (Hkeep : isActiveOrder now order = true)
      by (unfold isActiveOrder; by rewrite Hready).
    assert (Hkept : In order (List.filter (isActiveOrder now) bucket))
      by (by apply filter_In).
    exists k. unfold sweepOrders. rewrite sweep_lookup, Hk. simpl.
    unfold sweepBucket.
    destruct (List.filter (isActiveOrder now) bucket) as [|x l] eqn:Hf;
      [done|]. simpl. eexists. split; [done|]. exact Hkept.
Qed.

Lemma listAvailable_ignores_age_witness :
  In otherOrder
     (listAvailable (sweepOrders 900000000 {["u1" := [otherOrder]]})).
Proof.
  apply (listAvailable_ignores_age 900000000 {["u1" := [otherOrder]]}
           "u1" [otherOrder] otherOrder).
  - by vm_compute.
  - by left.
  - reflexivity.
  - reflexivity.
Defined.

(** ** The status handler, continued *)

Lemma findIndex_alter {A : Type} (p : A → bool) (f : A → A) (i : nat)
    (l : list A) :
  (∀ x, p (f x) = p x) → findIndex p (alter f i l) = findIndex p l.
Proof.
  intros Hpf. revert i. induction l as [|y l IH]; intros [|i]; simpl;
    try done.
  - by rewrite Hpf.
  - specialize (IH i). unfold alter in IH. by rewrite IH.
Qed.

Section status_algebra.
Variables (orderId : string) (status : OrderStatus)
          (courierId : option string).

Let touched (order : Order.t) : Order.t :=
  Order.with_status_courier status
    (js_or courierId (Order.courierId order)) order.

Lemma touched_idempotent (order : Order.t) :
  touched (touched order) = touched order.
Proof.
  unfold touched, Order.with_status_courier, js_or. simpl.
  by destruct (truthy courierId).
Qed.

Lemma updateBucket_idempotent (userOrders : list Order.t) :
  updateBucket orderId status courierId
    (updateBucket orderId status courierId userOrders)
  = updateBucket orderId status courierId userOrders.
Proof.
  unfold updateBucket.
  destruct (findIndex _ userOrders) as [i|] eqn:Hfind.
  - rewrite findIndex_alter by done. rewrite Hfind.
    rewrite list_alter_alter_eq. apply list_alter_ext; [|done].
    intros x _. apply touched_idempotent.
  - by rewrite Hfind.
Qed.

Lemma hasOrder_updateBucket (userOrders : list Order.t) :
  hasOrder orderId (updateBucket orderId status courierId userOrders)
  = hasOrder orderId userOrders.
Proof.
  unfold hasOrder, updateBucket.
  destruct (findIndex _ userOrders) as [i|] eqn:Hfind.
  - rewrite findIndex_alter by done. by rewrite Hfind.
  - by rewrite Hfind.
Qed.
End status_algebra.

(** X13.  A status update is idempotent: sending the same request again
    leaves the store as the first call left it and gets the same answer. *)
Theorem updateStatus_idempotent (orderId : string) (status : OrderStatus)
    (courierId : option string) (orders : gmap string (list Order.t)) :
  updateStatus orderId status courierId
    (updateStatus orderId status courierId orders).1
  = updateStatus orderId status courierId orders.
Proof.
  set (once := updateStatus orderId status courierId orders).
  assert (Hstore : (updateStatus orderId status courierId once.1).1 = once.1).
  { apply map_eq. intros k. rewrite updateStatus_lookup.
    unfold once. rewrite updateStatus_lookup.
    destruct (orders !! k) as [userOrders|]; simpl; [|done].
    by rewrite updateBucket_idempotent. }
  assert (Hresp : (updateStatus orderId status courierId once.1).2 = once.2).
  { destruct (updateStatus_response orderId status courierId once.1)
      as [[-> (k & os & Hk & Hhas)]|[-> Hnone]];
    destruct (updateStatus_response orderId status courierId orders)
      as [[H1 _]|[H1 Hnone1]]; fold once in H1; rewrite H1; try done.
    - unfold once in Hk. rewrite updateStatus_lookup in Hk.
      destruct (orders !! k) as [userOrders|] eqn:Hk0; [|done].
      simpl in Hk. injection Hk as <-.
      rewrite hasOrder_updateBucket in Hhas.
      by rewrite (Hnone1 k userOrders Hk0) in Hhas.
    - destruct (updateStatus_response orderId status courierId orders)
        as [[_ (k & os & Hk & Hhas)]|[H2 _]];
        [|fold once in H2; congruence].
      specialize (Hnone k (updateBucket orderId status courierId os)).
      rewrite hasOrder_updateBucket, Hhas in Hnone.
      assert (true = false); [|done]. apply Hnone.
      unfold once. by rewrite updateStatus_lookup, Hk. }
  destruct (updateStatus orderId status courierId once.1) as [s r].
  destruct once as [s' r']. simpl in *. by subst.
Qed.

(** X14.  A status update can change nothing of a stored order but its
    status and its courier id: every order keeps its place in its bucket
    and all its other fields, and an absent bucket stays absent. *)
Theorem updateStatus_touches_two_fields (orderId : string)
    (status : OrderStatus) (courierId : option string)
    (orders : gmap string (list Order.t)) (k : string) :
  match orders !! k with
  | None => (updateStatus orderId status courierId orders).1 !! k = None
  | Some userOrders =>
      ∃ userOrders',
        (updateStatus orderId status courierId orders).1 !! k
          = Some userOrders'
        ∧ length userOrders' = length userOrders
        ∧ ∀ i order, userOrders !! i = Some order →
            ∃ order', userOrders' !! i = Some order'
              ∧ Order.id order' = Order.id order
              ∧ Order.userId order' = Order.userId order
              ∧ Order.customerName order' = Order.customerName order
              ∧ Order.restaurantId order' = Order.restaurantId order
              ∧ Order.restaurantName order' = Order.restaurantName order
              ∧ Order.totalAmount order' = Order.totalAmount order
              ∧ Order.orderItems order' = Order.orderItems order
              ∧ Order.deliveryAddress order' = Order.deliveryAddress order
              ∧ Order.courierName order' = Order.courierName order
              ∧ Order.createdAt order' = Order.createdAt order
  end.
Proof.
  rewrite updateStatus_lookup.
  destruct (orders !! k) as [userOrders|]; simpl; [|done].
  eexists. split; [done|]. split; [apply updateBucket_length|].
  intros i order Hi. eexists. split; [by apply updateBucket_lookup|].
  by case_decide.
Qed.

(** X15.  A status update that names a courier assigns that courier to the
    first order with the id in each bucket, replacing any courier the order
    had, and the order is not among the available orders afterwards. *)
Theorem updateStatus_assigns_courier (orderId : string)
    (status : OrderStatus) (courier : string)
    (orders : gmap string (list Order.t)) (k : string)
    (userOrders : list Order.t) (i : nat) :
  courier ≠ EmptyString →
  orders !! k = Some userOrders →
  findIndex (λ o, String.eqb (Order.id o) orderId) userOrders = Some i →
  let r := updateStatus orderId status (Some courier) orders in
  ∃ userOrders' order',
    r.1 !! k = Some userOrders'
    ∧ userOrders' !! i = Some order'
    ∧ Order.id order' = orderId
    ∧ Order.status order' = status
    ∧ Order.courierId order' = Some courier
    ∧ ¬ In order' (listAvailable r.1).
Proof.
  intros Hc Hk Hfind r. subst r.
  destruct (findIndex_Some _ _ _ Hfind) as (x & Hx & Hp).
  apply String.eqb_eq in Hp. apply String.eqb_neq in Hc.
  eexists _, _. rewrite updateStatus_lookup, Hk. simpl.
  split; [done|]. split.
  { rewrite (updateBucket_lookup _ _ _ _ _ _ Hx). by rewrite decide_True. }
  unfold js_or. simpl. rewrite Hc. simpl.
  repeat (split; [done|]).
  unfold listAvailable. rewrite filter_In. simpl. rewrite Hc. simpl.
  rewrite andb_false_r. by intros [_ ?].
Qed.

Lemma updateStatus_assigns_courier_witness :
  ∃ userOrders' order',
    (updateStatus "o2" PICKED_UP (Some "c7")
       {["u1" := [sampleOrder PENDING None; otherOrder]]}).1 !! "u1"
      = Some userOrders'
    ∧ userOrders' !! 1%nat = Some order'
    ∧ Order.courierId order' = Some "c7".
Proof.
  destruct (updateStatus_assigns_courier "o2" PICKED_UP "c7"
              {["u1" := [sampleOrder PENDING None; otherOrder]]}
              "u1" [sampleOrder PENDING None; otherOrder] 1)
    as (l & o & Hl & Hi & _ & _ & Hc & _).
  - intros H. discriminate H.
  - by vm_compute.
  - reflexivity.
  - exists l, o. split; [exact Hl|]. split; [exact Hi|exact Hc].
Defined.

(** ** Order creation, continued *)

(** X16.  Batches accumulate: after two arrays are posted for the same
    owner, one after the other, the owner's bucket holds the orders that
    were there before, then the first array, then the second, in that
    order, so nothing already in the bucket is overwritten or dropped; both
    calls succeed, no other bucket changes, and the result is the one of
    posting the concatenation at once. *)
Theorem createOrders_accumulates (userId : string)
    (first second : list Order.t) (orders : gmap string (list Order.t)) :
  let r1 := createOrders userId (Some first) orders in
  let r2 := createOrders userId (Some second) r1.1 in
  r1.2 = Ok tt
  ∧ r2.2 = Ok tt
  ∧ r2.1 !! userId
    = Some (default [] (orders !! userId) ++ first ++ second)
  ∧ (∀ k, k ≠ userId → r2.1 !! k = orders !! k)
  ∧ (∀ i order, default [] (orders !! userId) !! i = Some order →
       ∃ bucket, r2.1 !! userId = Some bucket ∧ bucket !! i = Some order)
  ∧ r2 = createOrders userId (Some (first ++ second)) orders.
Proof.
  unfold createOrders. simpl.
  rewrite !lookup_insert_eq, insert_insert_eq. simpl.
  rewrite <- !app_assoc.
  split; [done|]. split; [done|]. split; [done|]. split.
  { intros k Hk. by apply lookup_insert_ne. }
  split; [|done].
  intros i order Hi. eexists. split; [done|].
  by apply lookup_app_l_Some.
Qed.

(** ** The bucket sweeps, continued *)

Lemma filter_filter_same {A : Type} (keep : A → bool) (l : list A) :
  List.filter keep (List.filter keep l) = List.filter keep l.
Proof.
  induction l as [|x l IH]; simpl; [done|].
  destruct (keep x) eqn:Hx; simpl; [|done]. by rewrite Hx, IH.
Qed.

Lemma sweepBucket_Some {A : Type} (keep : A → bool) (bucket kept : list A) :
  sweepBucket keep bucket = Some kept →
  kept = List.filter keep bucket
  ∧ kept ≠ []
  ∧ sweepBucket keep kept = Some kept.
Proof.
  unfold sweepBucket.
  destruct (List.filter keep bucket) as [|x l] eqn:Hf; simpl; [done|].
  intros [= <-]. split; [done|]. split; [done|].
  rewrite <- Hf, filter_filter_same, Hf. done.
Qed.

Lemma sweep_idempotent {A : Type} (keep : A → bool)
    (m : gmap string (list A)) :
  map_fold (sweep_visit keep) (map_fold (sweep_visit keep) m m)
           (map_fold (sweep_visit keep) m m)
  = map_fold (sweep_visit keep) m m.
Proof.
  apply map_eq. intros k. rewrite !sweep_lookup.
  destruct (m !! k) as [bucket|]; simpl; [|done].
  destruct (sweepBucket keep bucket) as [kept|] eqn:Hs; simpl; [|done].
  by apply sweepBucket_Some in Hs as (_ & _ & ->).
Qed.

(** X17.  After the order sweep no bucket is empty and every order left is
    one the sweep keeps; sweeping again at the same time changes nothing. *)
Theorem sweepOrders_settled (now : Z) (orders : gmap string (list Order.t)) :
  (∀ k bucket, sweepOrders now orders !! k = Some bucket →
     bucket ≠ []
     ∧ ∀ order, In order bucket → isActiveOrder now order = true)
  ∧ sweepOrders now (sweepOrders now orders) = sweepOrders now orders.
Proof.
  split; [|apply sweep_idempotent].
  intros k bucket. unfold sweepOrders. rewrite sweep_lookup.
  destruct (orders !! k) as [b|]; simpl; [|done].
  intros Hs. apply sweepBucket_Some in Hs as (-> & Hne & _).
  split; [done|]. intros order Hin. by apply filter_In in Hin as [_ ?].
Qed.

(** ** Messages, continued *)

(** X18.  A post is refused with a 400, leaving every thread as it was,
    exactly when the content or the sender id is missing or empty or the
    chat type is missing or empty (a falsy chat type is the [None] of the
    body).  Otherwise the handler builds the message from the generated id,
    the order id, the content, sender id and [isFromUser] flag of the body,
    the current time, the chat type and [delivered = false], appends it to
    the thread of the order, leaves every other thread as it was, and
    answers with that message. *)
Theorem postMessage_validation (now : Z) (newId orderId : string)
    (body : MessageBody.t) (messages : gmap string (list Message.t)) :
  let r := postMessage now newId orderId body messages in
  ((truthy (MessageBody.content body) = false
    ∨ truthy (MessageBody.senderId body) = false
    ∨ MessageBody.chatType body = None)
   ∧ r = (messages, BadRequest "Missing required fields"))
  ∨ (∃ content senderId chatType,
       MessageBody.content body = Some content ∧ content ≠ EmptyString
       ∧ MessageBody.senderId body = Some senderId ∧ senderId ≠ EmptyString
       ∧ MessageBody.chatType body = Some chatType
       ∧ let message :=
           Message.mk newId orderId content senderId
                      (MessageBody.isFromUser body) now chatType false in
         r.2 = Ok message
         ∧ r.1 !! orderId
           = Some (default [] (messages !! orderId) ++ [message])
         ∧ ∀ other, other ≠ orderId → r.1 !! other = messages !! other).
Proof.
  unfold postMessage.
  destruct (MessageBody.content body) as [content|];
    [|left; split; [by left|done]].
  destruct (MessageBody.senderId body) as [senderId|];
    [|left; split; [by right; left|done]].
  destruct (MessageBody.chatType body) as [chatType|];
    [|left; split; [by right; right|done]].
  destruct (truthy (Some content)) eqn:Hc;
    [|left; split; [by left|done]].
  destruct (truthy (Some senderId)) eqn:Hs;
    [|left; split; [by right; left|done]].
  right. exists content, senderId, chatType. simpl in Hc, Hs.
  apply negb_true_iff in Hc. apply String.eqb_neq in Hc.
  apply negb_true_iff in Hs. apply String.eqb_neq in Hs.
  split; [done|]. split; [exact Hc|]. split; [done|]. split; [exact Hs|].
  split; [done|]. simpl.
  split; [done|]. split; [apply lookup_insert_eq|].
  intros other Hother. by apply lookup_insert_ne.
Qed.

(** X19.  Right after a post, the unfiltered listing of the order at the
    same time answers with the messages of the thread that are at most 3
    hours old, in their order, followed by the new message; the threads of
    the other orders are as before the post. *)
Theorem postMessage_then_list (now : Z) (newId orderId : string)
    (body : MessageBody.t) (messages messages' : gmap string (list Message.t))
    (message : Message.t) :
  postMessage now newId orderId body messages = (messages', Ok message) →
  (listMessages now orderId None messages').2
  = List.filter (isRecent now) (default [] (messages !! orderId)) ++ [message]
  ∧ Message.id message = newId
  ∧ Message.delivered message = false
  ∧ ∀ other, other ≠ orderId → messages' !! other = messages !! other.
Proof.
  intros Hpost.
  destruct (postMessage_Ok _ _ _ _ _ _ _ Hpost) as (Hts & _ & _ & Hstored).
  rewrite listMessages_answer, Hstored. simpl.
  rewrite List.filter_app. simpl. unfold isRecent at 2. rewrite Hts.
  replace (now - now <=? THREE_HOURS) with true
    by (symmetry; apply Z.leb_le; unfold THREE_HOURS; lia).
  split; [done|].
  revert Hpost. unfold postMessage.
  destruct (MessageBody.content body) as [content|]; [|discriminate].
  destruct (MessageBody.senderId body) as [senderId|]; [|discriminate].
  destruct (MessageBody.chatType body) as [chatType|]; [|discriminate].
  destruct (negb _ || negb _); [discriminate|].
  intros [= <- <-]. simpl. split; [done|]. split; [done|].
  intros other Hother. by apply lookup_insert_ne.
Qed.

Lemma postMessage_then_list_witness :
  (listMessages 5 "o1" None (postMessage 5 "m1" "o1" helloBody ∅).1).2
  = [helloMessage 5].
Proof.
  exact (proj1 (postMessage_then_list 5 "m1" "o1" helloBody ∅
                  (postMessage 5 "m1" "o1" helloBody ∅).1 (helloMessage 5)
                  eq_refl)).
Defined.

Lemma filter_all {A : Type} (p : A → bool) (l : list A) :
  (∀ x, In x l → p x = true) → List.filter p l = l.
Proof.
  induction l as [|x l IH]; simpl; intros Hall; [done|].
  rewrite (Hall x) by (by left). f_equal. apply IH.
  intros y Hy. apply Hall. by right.
Qed.

Lemma filter_filter_weaker {A : Type} (p q : A → bool) (l : list A) :
  (∀ x, p x = true → q x = true) →
  List.filter p (List.filter q l) = List.filter p l.
Proof.
  intros Himp. induction l as [|x l IH]; simpl; [done|].
  destruct (q x) eqn:Hq; simpl.
  - by rewrite IH.
  - destruct (p x) eqn:Hp; [|done]. apply Himp in Hp. congruence.
Qed.

Lemma filter_filter_comm {A : Type} (p q : A → bool) (l : list A) :
  List.filter p (List.filter q l) = List.filter q (List.filter p l).
Proof.
  induction l as [|x l IH]; simpl; [done|].
  destruct (q x) eqn:Hq, (p x) eqn:Hp; simpl; rewrite ?Hq, ?Hp, IH; done.
Qed.

Lemma isRecent_earlier (now now' : Z) (msg : Message.t) :
  now ≤ now' → isRecent now' msg = true → isRecent now msg = true.
Proof. unfold isRecent. rewrite !Z.leb_le. lia. Qed.

Lemma byType_filter (type : option ChatType) (p : Message.t → bool)
    (thread : list Message.t) :
  byType type (List.filter p thread) = List.filter p (byType type thread).
Proof. destruct type; simpl; [apply filter_filter_comm|done]. Qed.

Lemma byType_idempotent (type : option ChatType) (thread : list Message.t) :
  byType type (byType type thread) = byType type thread.
Proof. destruct type; simpl; [apply filter_filter_same|done]. Qed.

Lemma listMessages_unfold (now : Z) (orderId : string)
    (type : option ChatType) (messages : gmap string (list Message.t)) :
  let thread := default [] (messages !! orderId) in
  let answer := List.filter (isRecent now) (byType type thread) in
  listMessages now orderId type messages
  = (if (length answer =? length thread)%nat then messages
     else <[orderId := answer]> messages, answer).
Proof.
  unfold listMessages, byType. simpl. by destruct (_ =? _)%nat.
Qed.

(** The answer of a listing made on the store an earlier listing of the
    same order and channel left. *)
Lemma listMessages_again (now now' : Z) (orderId : string)
    (type : option ChatType) (messages : gmap string (list Message.t)) :
  now ≤ now' →
  (listMessages now' orderId type
     (listMessages now orderId type messages).1).2
  = List.filter (isRecent now') (listMessages now orderId type messages).2.
Proof.
  intros Hle. rewrite (listMessages_unfold now). simpl.
  set (thread := default [] (messages !! orderId)).
  set (answer := List.filter (isRecent now) (byType type thread)).
  rewrite listMessages_unfold. simpl.
  destruct (length answer =? length thread)%nat.
  - fold thread. unfold answer. symmetry. apply filter_filter_weaker.
    intros x. by apply isRecent_earlier.
  - rewrite lookup_insert_eq. simpl. unfold answer.
    by rewrite byType_filter, byType_idempotent.
Qed.

(** X20.  Listing the messages of an order twice at the same time with the
    same channel filter gives the same answer twice, and the second listing
    changes nothing; a later listing answers with the messages of the
    earlier answer that are still at most 3 hours old, so it never shows a
    message the earlier one did not. *)
Theorem listMessages_idempotent (now : Z) (orderId : string)
    (type : option ChatType) (messages : gmap string (list Message.t)) :
  let first := listMessages now orderId type messages in
  listMessages now orderId type first.1 = first
  ∧ ∀ now', now ≤ now' →
      (listMessages now' orderId type first.1).2
      = List.filter (isRecent now') first.2.
Proof.
  split; [|intros now'; apply listMessages_again].
  assert (Hanswer :
    (listMessages now orderId type
       (listMessages now orderId type messages).1).2
    = (listMessages now orderId type messages).2).
  { rewrite listMessages_again by lia.
    rewrite listMessages_answer. apply filter_filter_same. }
  revert Hanswer. rewrite (listMessages_unfold now orderId type messages).
  simpl.
  set (thread := default [] (messages !! orderId)).
  set (answer := List.filter (isRecent now) (byType type thread)).
  destruct (length answer =? length thread)%nat eqn:Hlen.
  - intros _. rewrite listMessages_unfold. simpl. fold thread. fold answer.
    by rewrite Hlen.
  - intros Hanswer. rewrite listMessages_unfold in Hanswer |- *.
    simpl in Hanswer |- *. rewrite lookup_insert_eq in Hanswer |- *.
    simpl in Hanswer |- *. rewrite Hanswer, Nat.eqb_refl. done.
Qed.

(** X21.  A listing touches no thread but the one of its order, and a
    listing for an order without a thread answers with the empty sequence
    and leaves the store as it was. *)
Theorem listMessages_frame (now : Z) (orderId : string)
    (type : option ChatType) (messages : gmap string (list Message.t)) :
  (∀ other, other ≠ orderId →
     (listMessages now orderId type messages).1 !! other = messages !! other)
  ∧ (messages !! orderId = None →
     listMessages now orderId type messages = (messages, [])).
Proof.
  rewrite listMessages_unfold. simpl. split.
  - intros other Hne. destruct (_ =? _)%nat; [done|].
    by apply lookup_insert_ne.
  - intros ->. simpl. by destruct type.
Qed.

(** X22.  A listing without a channel filter drops nothing but messages
    older than 3 hours: every message of the thread that is at most 3 hours
    old is still in the thread afterwards. *)
Theorem listMessages_unfiltered_keeps_recent (now : Z) (orderId : string)
    (messages : gmap string (list Message.t)) (thread : list Message.t)
    (message : Message.t) :
  messages !! orderId = Some thread →
  In message thread →
  now - Message.timestamp message ≤ THREE_HOURS →
  ∃ thread',
    (listMessages now orderId None messages).1 !! orderId = Some thread'
    ∧ In message thread'
    ∧ In message (listMessages now orderId None messages).2.
Proof.
  intros Hk Hin Hage. apply Z.leb_le in Hage.
  rewrite listMessages_unfold. simpl. rewrite Hk. simpl.
  assert (Hkept : In message (List.filter (isRecent now) thread))
    by (by apply filter_In).
  destruct (_ =? _)%nat.
  - exists thread. by rewrite Hk.
  - eexists. rewrite lookup_insert_eq. done.
Qed.

Lemma listMessages_unfiltered_keeps_recent_witness :
  In (helloMessage 0)
     (listMessages 700 "o1" None
        {["o1" := [helloMessage 0;
                   Message.mk "m2" "o1" "on my way" "c1" false (-20000000)
                              COURIER_CHAT false]]}).2.
Proof.
  destruct (listMessages_unfiltered_keeps_recent 700 "o1"
              {["o1" := [helloMessage 0;
                         Message.mk "m2" "o1" "on my way" "c1" false
                                    (-20000000) COURIER_CHAT false]]}
              [helloMessage 0;
               Message.mk "m2" "o1" "on my way" "c1" false (-20000000)
                          COURIER_CHAT false]
              (helloMessage 0))
    as (thread' & _ & _ & Hin).
  - by vm_compute.
  - by left.
  - by vm_compute.
  - exact Hin.
Defined.

Lemma sweepMessages_thread (now : Z) (messages : gmap string (list Message.t))
    (k : string) :
  default [] (sweepMessages now messages !! k)
  = List.filter (isRecent now) (default [] (messages !! k)).
Proof.
  rewrite sweepMessages_lookup.
  destruct (messages !! k) as [thread|]; simpl; [|done].
  unfold sweepBucket.
  by destruct (List.filter (isRecent now) thread).
Qed.

(** X23.  The message sweep keeps of every thread exactly its messages of
    age at most 3 hours, in their order, and deletes the thread when none
    is left; sweeping again at the same time changes nothing. *)
Theorem sweepMessages_retention (now : Z)
    (messages : gmap string (list Message.t)) :
  (∀ k thread', sweepMessages now messages !! k = Some thread' ↔
     thread' ≠ []
     ∧ ∃ thread, messages !! k = Some thread
                 ∧ thread' = List.filter (isRecent now) thread)
  ∧ (∀ msg, isRecent now msg = true
            ↔ now - Message.timestamp msg ≤ 3 * 60 * 60 * 1000)
  ∧ sweepMessages now (sweepMessages now messages)
    = sweepMessages now messages.
Proof.
  split; [|split; [|apply sweep_idempotent]].
  - intros k thread'. rewrite sweepMessages_lookup.
    destruct (messages !! k) as [thread|]; simpl.
    + split.
      * intros Hs. apply sweepBucket_Some in Hs as (-> & Hne & _).
        split; [done|]. by exists thread.
      * intros (Hne & t & [= <-] & ->). unfold sweepBucket.
        by destruct (List.filter (isRecent now) thread).
    + split; [done|]. by intros (_ & t & ? & _).
  - intros msg. unfold isRecent. apply Z.leb_le.
Qed.

(** X24.  The message sweep is not visible through the listing: a listing
    made at the time of the sweep or later answers the same on the swept
    store as on the store before the sweep. *)
Theorem sweepMessages_listMessages (now now' : Z) (orderId : string)
    (type : option ChatType) (messages : gmap string (list Message.t)) :
  now ≤ now' →
  (listMessages now' orderId type (sweepMessages now messages)).2
  = (listMessages now' orderId type messages).2.
Proof.
  intros Hle. rewrite !listMessages_unfold. simpl.
  rewrite sweepMessages_thread, byType_filter.
  apply filter_filter_weaker. intros x. by apply isRecent_earlier.
Qed.

Lemma sweepMessages_listMessages_witness :
  (listMessages 20 "o1" (Some RESTAURANT_CHAT)
     (sweepMessages 10 {["o1" := [helloMessage 0]]})).2
  = [helloMessage 0].
Proof.
  rewrite (sweepMessages_listMessages 10 20 "o1" (Some RESTAURANT_CHAT)
             {["o1" := [helloMessage 0]]} ltac:(lia)).
  reflexivity.
Defined.

(** ** The cleanup tick *)



(** ** The older server, continued *)

(** X26.  In the older server a menu comes back exactly as it was set, at
    any time of reading: the read has no expiry of its own, and the menu is
    gone only once a cleanup has run more than 24 hours after the set. *)
Theorem LegacyServer_menu_roundtrip (now now' : Z) (restaurantId : string)
    (items : list LegacyServer.MenuItem.t)
    (tempMenus : gmap string LegacyServer.MenuData.t) :
  let s := (LegacyServer.setMenu now restaurantId items tempMenus).1 in
  LegacyServer.getMenu restaurantId s = Ok items
  ∧ LegacyServer.getMenu restaurantId (LegacyServer.sweepMenus now' s)
    = if decide (now' - now ≤ 24 * 60 * 60 * 1000) then Ok items
      else NotFound "Menu not found".
Proof.
  simpl. unfold LegacyServer.getMenu, LegacyServer.sweepMenus.
  rewrite (expiry_loop_lookup
             (λ data, now' - LegacyServer.MenuData.timestamp data
                      >? 24 * 60 * 60 * 1000)).
  rewrite lookup_insert_eq. simpl. split; [done|].
  destruct (now' - now >? 24 * 60 * 60 * 1000) eqn:Hage.
  - apply gtb_true_gt in Hage. by rewrite decide_False by lia.
  - apply gtb_false_le in Hage. by rewrite decide_True by lia.
Qed.

(** X27.  In the older server a save without an image clears the cover
    image of a restaurant that had one: the stored restaurant carries no
    cover image afterwards. *)
Theorem LegacyServer_upsert_clears_coverImage (now : Z) (id name : string)
    (isActive : option string) (restaurants : list Restaurant.t) (i : nat) :
  id ≠ EmptyString →
  name ≠ EmptyString →
  findIndex (λ r, String.eqb (Restaurant.id r) id) restaurants = Some i →
  let r := LegacyServer.upsertRestaurant now None (Some id) (Some name)
             isActive restaurants in
  ∃ saved,
    r.2 = Ok saved
    ∧ r.1 !! i = Some saved
    ∧ Restaurant.id saved = id
    ∧ Restaurant.name saved = name
    ∧ Restaurant.coverImage saved = None
    ∧ length r.1 = length restaurants.
Proof.
  intros Hid Hname Hfind r. subst r.
  unfold LegacyServer.upsertRestaurant. simpl.
  apply String.eqb_neq in Hid, Hname. rewrite Hid, Hname. simpl.
  rewrite Hfind. simpl.
  apply findIndex_Some in Hfind as (x & Hx & _).
  eexists. split; [done|]. split.
  { apply list_lookup_insert_eq. by eapply lookup_lt_Some. }
  repeat (split; [done|]). apply length_insert.
Qed.

Lemma LegacyServer_upsert_clears_coverImage_witness :
  ∃ saved,
    (LegacyServer.upsertRestaurant 99 None (Some "r1") (Some "Brasserie")
       (Some "true") [bistro]).1 !! 0%nat = Some saved
    ∧ Restaurant.coverImage saved = None
    ∧ Restaurant.coverImage bistro = Some "/uploads/image-1.png".
Proof.
  destruct (LegacyServer_upsert_clears_coverImage 99 "r1" "Brasserie"
              (Some "true") [bistro] 0)
    as (saved & _ & Hi & _ & _ & Hcover & _).
  - intros H. discriminate H.
  - intros H. discriminate H.
  - reflexivity.
  - exists saved. split; [exact Hi|]. split; [exact Hcover|reflexivity].
Defined.

(** ** The cutoff across other requests *)

(** No listing ever shows a message older than 3 hours. *)
Lemma listMessages_never_old (now : Z) (orderId : string)
    (type : option ChatType) (messages : gmap string (list Message.t))
    (message : Message.t) :
  In message (listMessages now orderId type messages).2 →
  now - Message.timestamp message ≤ 3 * 60 * 60 * 1000.
Proof.
  rewrite listMessages_answer, filter_In. unfold isRecent.
  rewrite Z.leb_le. fold THREE_HOURS. tauto.
Qed.

(** A request that is not a listing of the order on another channel keeps
    in its thread every message that is at most 3 hours old at the time of
    the request. *)
Lemma serveMessages_keeps (request : MessageRequest) (orderId : string)
    (messages : gmap string (list Message.t)) (message : Message.t) :
  In message (default [] (messages !! orderId)) →
  isRecent (requestTime request) message = true →
  crossChannel orderId (Message.chatType message) request = false →
  In message (default [] (serveMessages request messages !! orderId)).
Proof.
  intros Hin Hrecent Hcross.
  destruct request as [now newId o body|now o type|now]; simpl in *.
  - unfold postMessage.
    destruct (MessageBody.content body) as [content|]; [|done].
    destruct (MessageBody.senderId body) as [senderId|]; [|done].
    destruct (MessageBody.chatType body) as [chatType|]; [|done].
    destruct (negb _ || negb _); [done|]. simpl.
    destruct (decide (o = orderId)) as [->|Hne].
    + rewrite lookup_insert_eq. simpl. apply in_or_app. by left.
    + by rewrite lookup_insert_ne.
  - rewrite listMessages_unfold. simpl.
    destruct (_ =? _)%nat; [done|].
    destruct (decide (o = orderId)) as [->|Hne];
      [|by rewrite lookup_insert_ne].
    rewrite lookup_insert_eq. simpl. apply filter_In. split; [|done].
    destruct type as [type|]; simpl; [|done].
    apply filter_In. split; [done|].
    rewrite String.eqb_refl in Hcross. simpl in Hcross.
    by apply negb_false_iff in Hcross.
  - rewrite sweepMessages_thread. by apply filter_In.
Qed.

Lemma serveAll_keeps (requests : list MessageRequest) (orderId : string)
    (messages : gmap string (list Message.t)) (message : Message.t)
    (now : Z) :
  In message (default [] (messages !! orderId)) →
  now - Message.timestamp message ≤ THREE_HOURS →
  Forall (λ request,
            crossChannel orderId (Message.chatType message) request = false
            ∧ requestTime request ≤ now) requests →
  In message (default [] (serveAll requests messages !! orderId)).
Proof.
  intros Hin Hage Hall. revert messages Hin.
  induction Hall as [|request requests [Hcross Htime] _ IH];
    intros messages Hin; simpl; [done|].
  apply IH. apply serveMessages_keeps; [done| |done].
  unfold isRecent. apply Z.leb_le. lia.
Qed.

(** What holds of the cutoff apart from the write-back of a channel
    filter: through any run of posts, cleanup ticks and listings, none of
    which is a listing of the order filtered on another channel, a message
    posted at time [T] is in the answer of a listing of its order
    (unfiltered or on its own channel) at a later time [now] exactly when
    [now - T] is at most 3 hours. *)
Lemma listMessages_cutoff_through_requests (T now : Z)
    (newId orderId : string) (body : MessageBody.t)
    (messages messages' : gmap string (list Message.t))
    (message : Message.t) (requests : list MessageRequest)
    (type : option ChatType) :
  postMessage T newId orderId body messages = (messages', Ok message) →
  Forall (λ request,
            crossChannel orderId (Message.chatType message) request = false
            ∧ requestTime request ≤ now) requests →
  type = None ∨ type = Some (Message.chatType message) →
  In message (listMessages now orderId type (serveAll requests messages')).2
  ↔ now - T ≤ 3 * 60 * 60 * 1000.
Proof.
  intros Hpost Hall Htype.
  destruct (postMessage_Ok _ _ _ _ _ _ _ Hpost) as (Hts & _ & _ & Hstored).
  split.
  - intros Hin. apply listMessages_never_old in Hin. by rewrite Hts in Hin.
  - intros Hage. fold THREE_HOURS in Hage.
    assert (Hkept : In message
                       (default [] (serveAll requests messages' !! orderId))).
    { apply (serveAll_keeps requests orderId messages' message now).
      - rewrite Hstored. simpl. apply in_or_app. right. by left.
      - by rewrite Hts.
      - exact Hall. }
    rewrite listMessages_answer. apply filter_In. split.
    + destruct Htype as [->| ->]; [done|].
      apply filter_In. split; [done|apply ChatType_eqb_refl].
    + unfold isRecent. rewrite Hts. by apply Z.leb_le.
Qed.

Lemma listMessages_cutoff_through_requests_witness :
  In (helloMessage 0)
     (listMessages ((2 * 60 + 59) * 60 * 1000) "o1" None
        (serveAll [SweepTick 900000;
                   ListMessages 1000000 "o1" (Some RESTAURANT_CHAT);
                   ListMessages 1100000 "o2" (Some COURIER_CHAT);
                   SweepTick 1800000]
           (postMessage 0 "m1" "o1" helloBody ∅).1)).2.
Proof.
  apply (listMessages_cutoff_through_requests 0 ((2 * 60 + 59) * 60 * 1000)
           "m1" "o1" helloBody ∅ (postMessage 0 "m1" "o1" helloBody ∅).1
           (helloMessage 0)
           [SweepTick 900000;
            ListMessages 1000000 "o1" (Some RESTAURANT_CHAT);
            ListMessages 1100000 "o2" (Some COURIER_CHAT);
            SweepTick 1800000]
           None).
  - reflexivity.
  - repeat constructor; by vm_compute.
  - by left.
  - by vm_compute.
Defined.

(** C8 on the code: a message is posted to [o1] on the restaurant channel
    at time 0.  One listing of [o1] filtered on COURIER_CHAT, a minute
    later, writes the empty sequence back as the thread of [o1]; the
    listing of [o1] at 2h59m, unfiltered or on the restaurant channel, then
    answers with the empty sequence, although the message is younger than
    3 hours.  Without that listing in between, and also with a cleanup
    tick in between, the listing at 2h59m answers with the message, and
    the listing at 3h01m does not. *)
Lemma listMessages_cutoff_lost :
  let posted := postMessage 0 "m1" "o1" helloBody ∅ in
  let courier := listMessages 60000 "o1" (Some COURIER_CHAT) posted.1 in
  let at_2h59 := (2 * 60 + 59) * 60 * 1000 in
  let at_3h01 := (3 * 60 + 1) * 60 * 1000 in
  posted.2 = Ok (helloMessage 0)
  ∧ posted.1 !! "o1" = Some [helloMessage 0]
  ∧ courier.1 !! "o1" = Some []
  ∧ (listMessages at_2h59 "o1" None courier.1).2 = []
  ∧ (listMessages at_2h59 "o1" (Some RESTAURANT_CHAT) courier.1).2 = []
  ∧ (listMessages at_2h59 "o1" None posted.1).2 = [helloMessage 0]
  ∧ (listMessages at_2h59 "o1" None (sweepMessages 60000 posted.1)).2
    = [helloMessage 0]
  ∧ (listMessages at_3h01 "o1" None posted.1).2 = [].
Proof. repeat split; by vm_compute. Qed.
